(** * go-htmx-chatter: the Hub control loop and the client pumps

    A shallow embedding of [Hub.Run] (hub source file), of [serveWs],
    [Client.readPump] and [Client.writePump] (client.go), together with
    the part of the Go runtime they lean on: channels with their
    non-blocking send, [close] and [len].

    Pointers to [Client] are locations into a heap of client objects; the
    mailbox [send] of a client lives in that heap, so the Hub and the
    pumps see one shared channel per client. *)

From Stdlib Require Import ZArith Lia Ascii String.
From stdpp Require Import base gmap list strings fin_maps.

(** ** Go runtime: panics and channels *)

(** A Go byte slice, kept as a string of bytes. *)
Definition bytes := string.

Inductive panic :=
  | SendOnClosedChannel
  | CloseOfClosedChannel
  | NilDereference.

(** Outcome of a piece of Go code that either completes or panics. *)
Inductive result (A : Type) :=
  | Ok (a : A)
  | Panic (p : panic).
Arguments Ok {A} a.
Arguments Panic {A} p.

#[global] Instance result_ret : MRet result := fun A a => Ok a.
#[global] Instance result_bind : MBind result := fun A B f r =>
  match r with
  | Ok a => f a
  | Panic p => Panic p
  end.

(** A channel of byte slices as the runtime keeps it: capacity given to
    [make], the queued elements (oldest first), the number of receivers
    parked on it, and the closed flag.  [handed] records the elements
    that a send passed directly to a parked receiver, oldest first. *)
Record chan := Chan {
  dataqsiz : nat;
  qbuf : list bytes;
  recvq : nat;
  handed : list bytes;
  closed : bool
}.

(** [make(chan []byte, size)]; [make(chan []byte)] is [make_chan 0]. *)
Definition make_chan (size : nat) : chan := Chan size [] 0 [] false.

(** [len(ch)]: the number of queued elements. *)
Definition chanlen (ch : chan) : nat := length (qbuf ch).

(** The send case of a [select] that has a [default]: a closed channel
    panics; a parked receiver takes the value directly; otherwise the
    value is queued when there is room; otherwise the send is not ready
    and [default] runs (the [false] outcome, channel untouched). *)
Definition chansend_nb (ch : chan) (v : bytes) : result (bool * chan) :=
  if closed ch then Panic SendOnClosedChannel
  else if bool_decide (0 < recvq ch) then
    Ok (true, Chan (dataqsiz ch) (qbuf ch) (pred (recvq ch)) (handed ch ++ [v]) false)
  else if bool_decide (length (qbuf ch) < dataqsiz ch) then
    Ok (true, Chan (dataqsiz ch) (qbuf ch ++ [v]) (recvq ch) (handed ch) false)
  else Ok (false, ch).

(** [close(ch)]: panics on a closed channel; otherwise marks it closed
    and releases every parked receiver. *)
Definition closechan (ch : chan) : result chan :=
  if closed ch then Panic CloseOfClosedChannel
  else Ok (Chan (dataqsiz ch) (qbuf ch) 0 (handed ch) true).

(** The receive case [msg, ok := <-ch]: a queued element is taken; an
    empty closed channel yields the zero value with [ok = false]; an empty
    open channel is not ready ([None]) and the receiver parks. *)
Definition chanrecv (ch : chan) : option (bytes * bool) * chan :=
  match qbuf ch with
  | v :: q => (Some (v, true), Chan (dataqsiz ch) q (recvq ch) (handed ch) (closed ch))
  | [] =>
      if closed ch then (Some (""%string, false), ch)
      else (None, Chan (dataqsiz ch) [] (S (recvq ch)) (handed ch) false)
  end.

(** A parked receiver leaves the channel because another case of its
    [select] fired. *)
Definition unpark (ch : chan) : chan :=
  Chan (dataqsiz ch) (qbuf ch) (pred (recvq ch)) (handed ch) (closed ch).

(** Everything the channel has accepted and not yet handed out of its
    queue is what its receiver has got or will get. *)
Definition delivered (ch : chan) : list bytes := handed ch ++ qbuf ch.

(** ** Data model (hub source file, client.go) *)

Record Message := {
  ClientId : string;
  Text : string
}.

(** A [*Client]. *)
Definition loc := positive.

Module Client.
(** [Client]: [hub] is the one Hub of the process and [conn] is
    modelled with the pumps; the Hub touches [id] and [send] only. *)
Record t := {
  id : string;
  send : chan
}.
End Client.

(** [Hub]: the [clients] map and the [messages] history.  The three
    channels [broadcast], [register] and [unregister] are unbuffered and
    feed the events handled below; the embedded [RWMutex] is only taken
    and released around map writes inside the loop. *)
Record Hub := {
  clients : gmap loc bool;
  messages : list Message
}.

Definition NewHub : Hub := {| clients := ∅; messages := [] |}.

(** Lines written with [log.Printf]. *)
Inductive logline :=
  | LogConnected (cid : string)
  | LogDisconnected (cid : string)
  | LogValue (text : bytes)
  | LogError.

(** What the code does to the outside, in program order: log lines,
    attempted mailbox sends with their outcome, and [close] calls. *)
Inductive effect :=
  | Logged (l : logline)
  | SendTried (c : loc) (b : bytes) (ok : bool)
  | Closed (c : loc).

Record world := {
  hub : Hub;
  heap : gmap loc Client.t;
  trace : list effect
}.

Definition deref (w : world) (c : loc) : result Client.t :=
  match heap w !! c with
  | Some cl => Ok cl
  | None => Panic NilDereference
  end.

Definition with_send (cl : Client.t) (ch : chan) : Client.t :=
  {| Client.id := Client.id cl; Client.send := ch |}.

(** ** Hub.Run: one handler per case of the [select] *)

Section HubLoop.

(** [getMessageTemplate]: the template file is not part of the
    sources; its two failure paths end the process with [log.Fatalf],
    so a handler that goes on has got bytes back. *)
Variable getMessageTemplate : Message → bytes.

(** [case client := <-h.register] *)
Definition on_register (c : loc) (w : world) : result world :=
  let h := {| clients := <[c := true]> (clients (hub w));
              messages := messages (hub w) |} in
  cl ← deref w c;
  Ok {| hub := h; heap := heap w;
        trace := trace w ++ [Logged (LogConnected (Client.id cl))] |}.

(** [case client := <-h.unregister] *)
Definition on_unregister (c : loc) (w : world) : result world :=
  match clients (hub w) !! c with
  | Some _ =>
      cl ← deref w c;
      ch ← closechan (Client.send cl);
      Ok {| hub := {| clients := delete c (clients (hub w));
                      messages := messages (hub w) |};
            heap := <[c := with_send cl ch]> (heap w);
            trace := trace w ++ [Logged (LogDisconnected (Client.id cl)); Closed c] |}
  | None => Ok w
  end.

(** Body of [for client := range h.clients]: the inner [select]. *)
Definition offer (b : bytes) (c : loc) (w : world) : result world :=
  cl ← deref w c;
  '(ok, ch) ← chansend_nb (Client.send cl) b;
  if ok : bool then
    Ok {| hub := hub w;
          heap := <[c := with_send cl ch]> (heap w);
          trace := trace w ++ [SendTried c b true] |}
  else
    ch' ← closechan (Client.send cl);
    Ok {| hub := {| clients := delete c (clients (hub w));
                    messages := messages (hub w) |};
          heap := <[c := with_send cl ch']> (heap w);
          trace := trace w ++ [SendTried c b false; Closed c] |}.

(** The [range] loop over the keys in the order the runtime produces
    them.  The loop deletes only the key it is visiting, so every key
    present when the loop starts is visited. *)
Fixpoint fan_out (order : list loc) (m : Message) (w : world) : result world :=
  match order with
  | [] => Ok w
  | c :: rest => w' ← offer (getMessageTemplate m) c w; fan_out rest m w'
  end.

(** [case msg := <-h.broadcast], with the iteration order made explicit. *)
Definition on_broadcast_in (order : list loc) (m : Message) (w : world) : result world :=
  fan_out order m
    {| hub := {| clients := clients (hub w); messages := messages (hub w) ++ [m] |};
       heap := heap w; trace := trace w |}.

(** One order the runtime may pick. *)
Definition range_keys (reg : gmap loc bool) : list loc := (map_to_list reg).*1.

Definition on_broadcast (m : Message) (w : world) : result world :=
  on_broadcast_in (range_keys (clients (hub w))) m w.

(** ** The running program: what reaches the loop, and the outbound
    pumps acting on their mailboxes *)

(** [serveWs] after a successful upgrade: a new client with an
    unbuffered mailbox, sent on [h.register]. *)
Definition serveWs (cid : string) (w : world) : result world :=
  let c := fresh (dom (heap w)) in
  on_register c
    {| hub := hub w;
       heap := <[c := {| Client.id := cid; Client.send := make_chan 0 |}]> (heap w);
       trace := trace w |}.

(** The outbound pump of [c] reaches the receive case of its [select]. *)
Definition pump_recv (c : loc) (w : world) : world :=
  match heap w !! c with
  | Some cl =>
      {| hub := hub w;
         heap := <[c := with_send cl (chanrecv (Client.send cl)).2]> (heap w);
         trace := trace w |}
  | None => w
  end.

(** The outbound pump of [c] leaves its [select] through the ticker case. *)
Definition pump_tick (c : loc) (w : world) : world :=
  match heap w !! c with
  | Some cl =>
      {| hub := hub w;
         heap := <[c := with_send cl (unpark (Client.send cl))]> (heap w);
         trace := trace w |}
  | None => w
  end.

Inductive event :=
  | EvServeWs (cid : string)
  | EvUnregister (c : loc)
  | EvBroadcast (m : Message)
  | EvPumpRecv (c : loc)
  | EvPumpTick (c : loc).

Definition step (e : event) (w : world) : result world :=
  match e with
  | EvServeWs cid => serveWs cid w
  | EvUnregister c => on_unregister c w
  | EvBroadcast m => on_broadcast m w
  | EvPumpRecv c => Ok (pump_recv c w)
  | EvPumpTick c => Ok (pump_tick c w)
  end.

Fixpoint run (evs : list event) (w : world) : result world :=
  match evs with
  | [] => Ok w
  | e :: rest => w' ← step e w; run rest w'
  end.

End HubLoop.

(** The process after [main] has created the Hub. *)
Definition boot : world := {| hub := NewHub; heap := ∅; trace := [] |}.


(** ** client.go: timing constants

    [time.Duration] is a count of nanoseconds in an [int64]. *)

Definition Second : Z := 1000000000.
Definition int64_max : Z := 9223372036854775807.

(** time allowed to read the next pong message from the peer *)
Definition pongWait : Z := 60 * Second.
(** maximum message size allowed from the peer *)
Definition maxMessageSize : Z := 512.
(** send pings to peer with this period, must be less than pongWait *)
Definition pingPeriod : Z := Z.quot (pongWait * 9) 10.
(** time allowed to write a message to the peer *)
Definition writeWait : Z := 10 * Second.

(** ** The websocket connection, as far as the pumps drive it *)

Inductive frame :=
  | TextMessage (payload : bytes)
  | CloseMessage (payload : bytes)
  | PingMessage (payload : bytes)
  | PongMessage (payload : bytes).

(** The control-frame handlers a connection can hold here: the one the
    library installs by default, and the closure built in [readPump]. *)
Inductive handler :=
  | DefaultHandler
  | ExtendReadDeadline.

(** Deadlines are instants in nanoseconds; [0] is the zero time, no
    deadline. *)
Record Conn := {
  readLimit : Z;
  readDeadline : Z;
  writeDeadline : Z;
  handlePing : handler;
  handlePong : handler;
  sent : list frame
}.

(** The connection [upgrader.Upgrade] returns: no limit, no deadlines,
    default handlers. *)
Definition newConn : Conn :=
  {| readLimit := 0; readDeadline := 0; writeDeadline := 0;
     handlePing := DefaultHandler; handlePong := DefaultHandler; sent := [] |}.

Definition SetReadLimit (limit : Z) (conn : Conn) : Conn :=
  {| readLimit := limit; readDeadline := readDeadline conn;
     writeDeadline := writeDeadline conn; handlePing := handlePing conn;
     handlePong := handlePong conn; sent := sent conn |}.

Definition SetReadDeadline (t : Z) (conn : Conn) : Conn :=
  {| readLimit := readLimit conn; readDeadline := t;
     writeDeadline := writeDeadline conn; handlePing := handlePing conn;
     handlePong := handlePong conn; sent := sent conn |}.

Definition SetWriteDeadline (t : Z) (conn : Conn) : Conn :=
  {| readLimit := readLimit conn; readDeadline := readDeadline conn;
     writeDeadline := t; handlePing := handlePing conn;
     handlePong := handlePong conn; sent := sent conn |}.

Definition SetPingHandler (h : handler) (conn : Conn) : Conn :=
  {| readLimit := readLimit conn; readDeadline := readDeadline conn;
     writeDeadline := writeDeadline conn; handlePing := h;
     handlePong := handlePong conn; sent := sent conn |}.

Definition WriteFrame (f : frame) (conn : Conn) : Conn :=
  {| readLimit := readLimit conn; readDeadline := readDeadline conn;
     writeDeadline := writeDeadline conn; handlePing := handlePing conn;
     handlePong := handlePong conn; sent := sent conn ++ [f] |}.

(** A ping or pong read from the peer at instant [now] runs the handler
    installed for its kind.  The default ping handler answers with a
    pong; the default pong handler does nothing.  Only these two kinds
    are followed here: a close frame, which the library answers itself
    and which ends the read loop, and data frames are not. *)
Definition recv_control (now : Z) (f : frame) (conn : Conn) : Conn :=
  match f with
  | PingMessage d =>
      match handlePing conn with
      | ExtendReadDeadline => SetReadDeadline (now + pongWait) conn
      | DefaultHandler => WriteFrame (PongMessage d) conn
      end
  | PongMessage d =>
      match handlePong conn with
      | ExtendReadDeadline => SetReadDeadline (now + pongWait) conn
      | DefaultHandler => conn
      end
  | _ => conn
  end.

(** ** Client.readPump *)

(** The three calls before the loop, at instant [now]. *)
Definition readPump_init (now : Z) (conn : Conn) : Conn :=
  SetPingHandler ExtendReadDeadline
    (SetReadDeadline (now + pongWait)
       (SetReadLimit maxMessageSize conn)).

Inductive read_error :=
  | CloseError (code : Z)
  | OtherReadError.

Definition CloseGoingAway : Z := 1001.
Definition CloseAbnormalClosure : Z := 1006.

Definition IsUnexpectedCloseError (e : read_error) (expected : list Z) : bool :=
  match e with
  | CloseError code => negb (bool_decide (code ∈ expected))
  | OtherReadError => false
  end.

(** *** encoding/json, as [Decoder.Decode] treats one frame

    The library is not part of the sources; what follows is its
    documented behaviour on a target of type [**WSMessage]: a syntax error
    is found before anything is stored; a value that does not suit its
    target is skipped and reported once the rest has been decoded; [null]
    sets a pointer to nil. *)

(** A JSON value.  A number carries whether its literal fits a float64. *)
#[warnings="-register-all"]
Inductive json :=
  | JNull
  | JBool (b : bool)
  | JNumber (lit : string) (fits : bool)
  | JString (s : string)
  | JArray (items : list json)
  | JObject (members : list (string * json)).

(** What the decoder's scanner makes of the bytes of a frame: no complete
    JSON value (syntax error, or the input ends first), or the first value
    of the input. *)
Inductive scanned :=
  | NoValue
  | Value (v : json).

Module WSMessage.
Record t := {
  Headers : option json;
  Text : string
}.
End WSMessage.

Definition upper (a : ascii) : ascii :=
  let n := nat_of_ascii a in
  if (97 <=? n)%nat && (n <=? 122)%nat then ascii_of_nat (n - 32) else a.

(** The folded form of a key, byte by byte as the library goes through
    it: an ASCII letter becomes its capital; the two letters outside
    ASCII whose case fold is an ASCII letter, U+017F (bytes 197 191,
    long s) and U+212A (bytes 226 132 170, Kelvin sign), become [S] and
    [K].  Every other rune outside ASCII folds to a rune outside ASCII
    and is left as it is here, which cannot make the key equal to, or
    differ from, a name written in ASCII. *)
Fixpoint fold_name (s : string) : string :=
  match s with
  | EmptyString => EmptyString
  | String a r =>
      match r with
      | EmptyString => String (upper a) EmptyString
      | String b r' =>
          if Ascii.eqb a "197" && Ascii.eqb b "191"
          then String "S" (fold_name r')
          else
            match r' with
            | EmptyString => String (upper a) (fold_name r)
            | String c r'' =>
                if Ascii.eqb a "226" && Ascii.eqb b "132" && Ascii.eqb c "170"
                then String "K" (fold_name r'')
                else String (upper a) (fold_name r)
            end
      end
  end.

(** A key selects the field whose name has the same folded form. *)
Definition key_matches (key name : string) : bool :=
  bool_decide (fold_name key = fold_name name).

(** Converting a value for an [interface{}] target fails on a number
    that does not fit a float64. *)
Fixpoint has_bad_number (v : json) : bool :=
  match v with
  | JNumber _ fits => negb fits
  | JArray items => existsb has_bad_number items
  | JObject members =>
      existsb (fun kv => match kv with (_, x) => has_bad_number x end) members
  | _ => false
  end.

(** One member of an object decoded into a [WSMessage]; the flag is the
    saved error.  A value that does not suit its field is skipped, the
    first such error is kept, and decoding goes on with the next member. *)
Definition store_member (st : WSMessage.t * bool) (kv : string * json) : WSMessage.t * bool :=
  let '(m, err) := st in
  let '(k, v) := kv in
  if key_matches k "HEADERS" then
    ({| WSMessage.Headers := match v with JNull => None | _ => Some v end;
        WSMessage.Text := WSMessage.Text m |},
     err || has_bad_number v)
  else if key_matches k "text" then
    match v with
    | JString s => ({| WSMessage.Headers := WSMessage.Headers m; WSMessage.Text := s |}, err)
    | JNull => (m, err)
    | _ => (m, true)
    end
  else (m, err).

(** [decoder.Decode(&msg)] with [msg] pointing at [target]: the pointer
    afterwards ([None] is nil) and whether an error came back. *)
Definition Decode (p : scanned) (target : WSMessage.t) : option WSMessage.t * bool :=
  match p with
  | NoValue => (Some target, true)
  | Value JNull => (None, false)
  | Value (JObject members) =>
      let '(m, err) := fold_left store_member members (target, false) in
      (Some m, err)
  | Value _ => (Some target, true)
  end.

(** [&WSMessage{}]: the zero value the pump decodes into. *)
Definition zeroWSMessage : WSMessage.t :=
  {| WSMessage.Headers := None; WSMessage.Text := "" |}.

(** What [ReadMessage] returned. *)
Inductive read :=
  | ReadFailed (e : read_error)
  | ReadFrame (text : bytes) (view : scanned).

Inductive pump_next :=
  | Continue
  | Exit.

Record read_step := {
  logs : list logline;
  submitted : option Message;
  next : pump_next
}.

(** One turn of the [for] loop of [readPump] for the client with id
    [cid]: the lines logged, the message sent on [h.broadcast] if any,
    and whether the loop goes round again. *)
Definition readPump_iter (cid : string) (r : read) : result read_step :=
  match r with
  | ReadFailed e =>
      Ok {| logs := LogValue "" ::
                    (if IsUnexpectedCloseError e [CloseGoingAway; CloseAbnormalClosure]
                     then [LogError] else []);
            submitted := None;
            next := Exit |}
  | ReadFrame text view =>
      let '(msg, err) := Decode view zeroWSMessage in
      match msg with
      | None => Panic NilDereference
      | Some m =>
          Ok {| logs := LogValue text :: (if err : bool then [LogError] else []);
                submitted := Some {| ClientId := cid; Text := WSMessage.Text m |};
                next := Continue |}
      end
  end.

(** ** Client.writePump *)

(** [for i := 0; i < n; i++ { w.Write(msg) }] on the bytes written so far. *)
Fixpoint write_again (n : nat) (msg : bytes) (w : bytes) : bytes :=
  match n with
  | O => w
  | S k => write_again k msg (w +:+ msg)
  end.

(** [case msg, ok := <-c.send] at instant [now]; [ch] is the mailbox
    right after the receive.  [nextWriterErr] and [closeErr] tell whether
    [NextWriter] and [w.Close] fail.  The mailbox comes back as the case
    leaves it. *)
Definition writePump_onSend (now : Z) (msg : bytes) (ok : bool) (ch : chan)
    (nextWriterErr closeErr : bool) (conn : Conn) : Conn * chan * pump_next :=
  let conn := SetWriteDeadline (now + writeWait) conn in
  if negb ok then (WriteFrame (CloseMessage "") conn, ch, Exit)
  else if nextWriterErr then (conn, ch, Exit)
  else
    let w := msg in
    let n := chanlen ch in
    let w := write_again n msg w in
    if closeErr then (conn, ch, Exit)
    else (WriteFrame (TextMessage w) conn, ch, Continue).

(** [case <-ticker.C] at instant [now]. *)
Definition writePump_onTick (now : Z) (pingErr : bool) (conn : Conn) : Conn * pump_next :=
  let conn := SetWriteDeadline (now + writeWait) conn in
  if pingErr then (conn, Exit)
  else (WriteFrame (PingMessage "") conn, Continue).

(** The coalescing step in the words of the specification: after the
    first message, every message queued in the mailbox at that instant is
    taken and written, in order. *)
Definition coalesce_spec (msg : bytes) (ch : chan) : bytes * chan :=
  (fold_left String.append (qbuf ch) msg,
   Chan (dataqsiz ch) [] (recvq ch) (handed ch) (closed ch)).

(** [n] copies of [msg], one after the other. *)
Fixpoint copies (n : nat) (msg : bytes) : bytes :=
  match n with
  | O => EmptyString
  | S k => msg +:+ copies k msg
  end.

(** ** Sample data *)

Definition sample_render (m : Message) : bytes :=
  ClientId m +:+ ": " +:+ Text m.

Definition hi : Message := {| ClientId := "A"; Text := "hi" |}.

(** Client [1] (id A) has no reader parked on its unbuffered mailbox;
    client [2] (id B) has one. *)
Definition two_clients : world :=
  {| hub := {| clients := {[1%positive := true; 2%positive := true]};
               messages := [] |};
     heap := {[1%positive := {| Client.id := "A"; Client.send := make_chan 0 |};
               2%positive := {| Client.id := "B"; Client.send := Chan 0 [] 1 [] false |}]};
     trace := [] |}.

Definition quoted (s : string) : string :=
  String "034"%char (s +:+ String "034"%char EmptyString).

(** The frame [{"text":"hi","text":1}] and what the scanner reads in it. *)
Definition clashing_text : bytes :=
  Eval cbv in ("{" +:+ quoted "text" +:+ ":" +:+ quoted "hi" +:+ "," +:+
               quoted "text" +:+ ":1}").

Definition clashing_view : scanned :=
  Value (JObject [("text", JString "hi"); ("text", JNumber "1" true)]).

(** A mailbox made with room for four, holding two messages. *)
Definition backlog : chan := Chan 4 ["b"; "c"] 0 [] false.

(** ** Predicates used to state the properties *)

(** The mailbox of [c] exists and has not been closed. *)
Definition mailbox_open (w : world) (c : loc) : Prop :=
  match heap w !! c with
  | Some cl => closed (Client.send cl) = false
  | None => False
  end.

(** Data-model invariant: every entry of the registry holds [true] and
    belongs to a client whose mailbox is open. *)
Definition registry_live (w : world) : Prop :=
  map_Forall (fun c v => v = true ∧ mailbox_open w c) (clients (hub w)).

#[global] Instance mailbox_open_dec w c : Decision (mailbox_open w c).
Proof. unfold mailbox_open. destruct (heap w !! c); apply _. Defined.

#[global] Instance registry_live_dec w : Decision (registry_live w).
Proof. unfold registry_live. apply _. Defined.

(** The mailbox can take one more element without its sender waiting. *)
Definition accepts (ch : chan) : bool :=
  bool_decide (0 < recvq ch) || bool_decide (length (qbuf ch) < dataqsiz ch).

(** The clients whose mailbox a trace closes, one entry per [close]. *)
Definition closes (tr : list effect) : list loc :=
  omap (fun e => match e with Closed c => Some c | _ => None end) tr.

(** What one turn of the fan-out loop does to the outside for [c], read
    off the world the loop started in. *)
Definition offer_log (b : bytes) (w : world) (c : loc) : list effect :=
  match heap w !! c with
  | Some cl =>
      if accepts (Client.send cl) then [SendTried c b true]
      else [SendTried c b false; Closed c]
  | None => []
  end.

(** The messages a sequence of events puts on [h.broadcast], in order. *)
Definition broadcasts (evs : list event) : list Message :=
  omap (fun e => match e with EvBroadcast m => Some m | _ => None end) evs.

(** Invariant of the running program: the registry is live, every
    [close] in the trace left its mailbox closed, and no mailbox was
    closed twice. *)
Record world_inv (w : world) : Prop := {
  inv_live : registry_live w;
  inv_closed : ∀ c, c ∈ closes (trace w) →
               ∃ cl, heap w !! c = Some cl ∧ closed (Client.send cl) = true;
  inv_once : NoDup (closes (trace w))
}.

(** What the fan-out loop leaves behind for a client whose registry
    entry was [r] and whose object was [cl] when the loop started: after
    an accepted send the entry stays and the mailbox holds the bytes;
    after a refused one the mailbox is closed and the entry is gone. *)
Definition offered (b : bytes) (r : option bool) (cl : Client.t) (w' : world) (c : loc) : Prop :=
  ∃ cl', heap w' !! c = Some cl' ∧ Client.id cl' = Client.id cl ∧
    if accepts (Client.send cl)
    then chansend_nb (Client.send cl) b = Ok (true, Client.send cl') ∧
         clients (hub w') !! c = r
    else chansend_nb (Client.send cl) b = Ok (false, Client.send cl) ∧
         closechan (Client.send cl) = Ok (Client.send cl') ∧
         clients (hub w') !! c = None.

(** ** The pumps as loops, and main.go *)

(** How far a pump has got: still inside its loop, returned from it, or
    stopped by a panic. *)
Inductive pump_end :=
  | Reading
  | Returned
  | Crashed (p : panic).

Record read_run := {
  run_logs : list logline;
  run_sent : list Message;
  run_end : pump_end
}.

(** The [for] loop of [readPump] over the results [ReadMessage] gives, in
    order.  The loop stops at the first failed read; a panic stops it
    after the frame has been logged; when the results run out the pump is
    left blocked in [ReadMessage]. *)
Fixpoint readPump_loop (cid : string) (reads : list read) : read_run :=
  match reads with
  | [] => {| run_logs := []; run_sent := []; run_end := Reading |}
  | r :: rest =>
      match readPump_iter cid r with
      | Panic p =>
          {| run_logs := match r with
                         | ReadFrame text _ => [LogValue text]
                         | ReadFailed _ => []
                         end;
             run_sent := []; run_end := Crashed p |}
      | Ok st =>
          match next st with
          | Exit =>
              {| run_logs := logs st; run_sent := option_list (submitted st);
                 run_end := Returned |}
          | Continue =>
              let r' := readPump_loop cid rest in
              {| run_logs := logs st ++ run_logs r';
                 run_sent := option_list (submitted st) ++ run_sent r';
                 run_end := run_end r' |}
          end
      end
  end.

(** What [readPump] of client [c] puts on the Hub's channels: one
    broadcast per message sent on, then, once the function is left by
    return or by panic, the deferred send on [h.unregister]. *)
Definition readPump_events (c : loc) (cid : string) (reads : list read) : list event :=
  let r := readPump_loop cid reads in
  (EvBroadcast <$> run_sent r) ++
  match run_end r with
  | Reading => []
  | _ => [EvUnregister c]
  end.

(** The case the [select] of [writePump] takes, with what the outside
    world decides in it. *)
Inductive select_case :=
  | OnSend (now : Z) (msg : bytes) (ok : bool) (ch : chan) (nextWriterErr closeErr : bool)
  | OnTick (now : Z) (pingErr : bool).

(** The [for] loop of [writePump] over the cases its [select] takes. *)
Fixpoint writePump_loop (cases : list select_case) (conn : Conn) : Conn * pump_next :=
  match cases with
  | [] => (conn, Continue)
  | OnSend now msg ok ch nwErr clErr :: rest =>
      match writePump_onSend now msg ok ch nwErr clErr conn with
      | (conn', _, Exit) => (conn', Exit)
      | (conn', _, Continue) => writePump_loop rest conn'
      end
  | OnTick now pingErr :: rest =>
      match writePump_onTick now pingErr conn with
      | (conn', Exit) => (conn', Exit)
      | (conn', Continue) => writePump_loop rest conn'
      end
  end.

(** Control frames read from the peer one after the other, each with the
    instant it is read at. *)
Definition recv_controls (fs : list (Z * frame)) (conn : Conn) : Conn :=
  fold_left (fun c tf => recv_control tf.1 tf.2 c) fs conn.

(** The events that are steps of an outbound pump rather than messages
    taken by the Hub loop. *)
Definition is_pump_event (e : event) : bool :=
  match e with
  | EvPumpRecv _ | EvPumpTick _ => true
  | _ => false
  end.

(** main.go: the handler registered for the pattern [/]. *)
Record Request := {
  URLPath : string;
  Method : string
}.

Inductive Response :=
  | HttpError (body : string) (code : Z)
  | ServedFile (name : string).

Definition StatusNotFound : Z := 404.

Definition rootHandler (r : Request) : Response :=
  if bool_decide (URLPath r ≠ "/") then HttpError "404 not found." StatusNotFound
  else if bool_decide (Method r ≠ "GET") then HttpError "Method is not supported." StatusNotFound
  else ServedFile "templates/index.html".

(** ** More predicates *)

(** The bytes the mailbox of [c] accepted along a trace, in order. *)
Definition accepted_by (c : loc) (tr : list effect) : list bytes :=
  omap (fun e => match e with
                 | SendTried c' b true => if decide (c' = c) then Some b else None
                 | _ => None
                 end) tr.

(** Invariant of the running program, continued: a client whose mailbox
    is open is in the registry, and every mailbox is unbuffered and holds
    nothing. *)
Record program_inv (w : world) : Prop := {
  pinv_world : world_inv w;
  pinv_registered : ∀ c cl, heap w !! c = Some cl →
                    closed (Client.send cl) = false →
                    is_Some (clients (hub w) !! c);
  pinv_unbuffered : ∀ c cl, heap w !! c = Some cl →
                    dataqsiz (Client.send cl) = 0 ∧ qbuf (Client.send cl) = []
}.

(** Every mailbox that is closed was closed by the Hub: the trace holds
    its [close]. *)
Definition closed_by_hub (w : world) : Prop :=
  ∀ c cl, heap w !! c = Some cl → closed (Client.send cl) = true →
          c ∈ closes (trace w).

(** The key [header] followed by a long s, and a frame that uses it for
    a number no float64 holds. *)
Definition long_s_key : string :=
  "header" +:+ String "197"%char (String "191"%char EmptyString).

Definition long_s_view : scanned :=
  Value (JObject [(long_s_key, JNumber "1e999" false); ("text", JString "yo")]).

(** A second sample: the frame [{"text":"hi"}]. *)
Definition hi_view : scanned := Value (JObject [("text", JString "hi")]).

(** * Properties *)

(** ** Channels *)

Lemma chansend_nb_open ch v :
  closed ch = false →
  ∃ ch', chansend_nb ch v = Ok (accepts ch, ch') ∧ closed ch' = false ∧
         (accepts ch = false → ch' = ch).
Proof.
  intros Hc. unfold chansend_nb, accepts. rewrite Hc.
  destruct (bool_decide (0 < recvq ch)); simpl.
  { eexists. split; [reflexivity|]. by split. }
  destruct (bool_decide (length (qbuf ch) < dataqsiz ch)); simpl.
  - eexists. split; [reflexivity|]. by split.
  - exists ch. by repeat split.
Qed.

Lemma chansend_nb_accepted ch v ch' :
  chansend_nb ch v = Ok (true, ch') →
  closed ch = false ∧ closed ch' = false ∧ accepts ch = true ∧
  dataqsiz ch' = dataqsiz ch ∧
  (handed ch' = handed ch ++ [v] ∧ qbuf ch' = qbuf ch ∨
   handed ch' = handed ch ∧ qbuf ch' = qbuf ch ++ [v]).
Proof.
  unfold chansend_nb, accepts.
  destruct (closed ch); [discriminate|].
  destruct (bool_decide (0 < recvq ch)); simpl.
  { intros [= <-]. simpl. auto 10. }
  destruct (bool_decide (length (qbuf ch) < dataqsiz ch)); simpl.
  { intros [= <-]. simpl. auto 10. }
  discriminate.
Qed.

Lemma chansend_nb_rejected ch v ch' :
  chansend_nb ch v = Ok (false, ch') →
  closed ch = false ∧ accepts ch = false ∧ ch' = ch.
Proof.
  unfold chansend_nb, accepts.
  destruct (closed ch) eqn:Hc; [discriminate|].
  destruct (bool_decide (0 < recvq ch)); simpl; [discriminate|].
  destruct (bool_decide (length (qbuf ch) < dataqsiz ch)); simpl; [discriminate|].
  intros [= <-]. auto.
Qed.

Lemma chansend_nb_delivers ch v ch' :
  chansend_nb ch v = Ok (true, ch') → v ∈ delivered ch'.
Proof.
  intros H. apply chansend_nb_accepted in H as (_ & _ & _ & _ & Hd).
  unfold delivered. destruct Hd as [[-> ->] | [-> ->]]; set_solver.
Qed.

Lemma closechan_open ch :
  closed ch = false →
  closechan ch = Ok (Chan (dataqsiz ch) (qbuf ch) 0 (handed ch) true).
Proof. intros Hc. unfold closechan. by rewrite Hc. Qed.

Lemma closechan_closed ch :
  closed ch = true → closechan ch = Panic CloseOfClosedChannel.
Proof. intros Hc. unfold closechan. by rewrite Hc. Qed.

Lemma chanrecv_closed ch : closed (chanrecv ch).2 = closed ch.
Proof.
  unfold chanrecv. destruct (qbuf ch); simpl; [|done].
  destruct (closed ch) eqn:Hc; simpl; done.
Qed.

(** ** The fan-out loop *)

Section HubProperties.

Variable render : Message → bytes.

Lemma mailbox_open_lookup w c :
  mailbox_open w c ↔ ∃ cl, heap w !! c = Some cl ∧ closed (Client.send cl) = false.
Proof.
  unfold mailbox_open. destruct (heap w !! c) as [cl|]; split.
  - eauto.
  - by intros (? & [= <-] & ?).
  - done.
  - by intros (? & ? & _).
Qed.

Lemma registry_live_lookup w c v :
  registry_live w → clients (hub w) !! c = Some v →
  v = true ∧ ∃ cl, heap w !! c = Some cl ∧ closed (Client.send cl) = false.
Proof.
  intros Hl Hc. destruct (Hl c v Hc) as [-> Ho].
  split; [done|]. by apply mailbox_open_lookup.
Qed.

(** One turn of the loop on an open mailbox. *)
Lemma offer_open b c w cl :
  heap w !! c = Some cl → closed (Client.send cl) = false →
  ∃ w', offer b c w = Ok w' ∧
        messages (hub w') = messages (hub w) ∧
        trace w' = trace w ++ offer_log b w c ∧
        (∀ c', c' ≠ c → clients (hub w') !! c' = clients (hub w) !! c' ∧
                         heap w' !! c' = heap w !! c') ∧
        offered b (clients (hub w) !! c) cl w' c.
Proof.
  intros Hcl Hopen.
  destruct (chansend_nb_open (Client.send cl) b Hopen) as (ch' & Hsend & Hopen' & Hsame).
  unfold offer, deref, offer_log, offered. rewrite Hcl. simpl. rewrite Hsend. simpl.
  destruct (accepts (Client.send cl)) eqn:Hacc.
  - eexists. split; [reflexivity|]. simpl. split_and!; [done..| |].
    + intros c' Hne. by rewrite lookup_insert_ne.
    + exists (with_send cl ch'). rewrite lookup_insert_eq. by split_and!.
  - rewrite (Hsame eq_refl) in Hsend. rewrite (closechan_open _ Hopen). simpl.
    eexists. split; [reflexivity|]. simpl. split_and!; [done..| |].
    + intros c' Hne. by rewrite lookup_delete_ne, lookup_insert_ne.
    + eexists. rewrite lookup_insert_eq. split; [reflexivity|]. simpl.
      rewrite lookup_delete_eq, (Hsame eq_refl). by split_and!.
Qed.

Lemma offer_log_ext b w w' (l : list loc) :
  (∀ c, c ∈ l → heap w' !! c = heap w !! c) →
  l ≫= offer_log b w' = l ≫= offer_log b w.
Proof.
  induction l as [|c l IH]; intros Hh; [done|].
  rewrite !bind_cons. f_equal.
  - unfold offer_log. rewrite Hh; [done|left].
  - apply IH. intros c' Hc'. apply Hh. by right.
Qed.

Lemma offered_ext b r cl w1 w2 c :
  clients (hub w2) !! c = clients (hub w1) !! c →
  heap w2 !! c = heap w1 !! c →
  offered b r cl w1 c → offered b r cl w2 c.
Proof.
  intros Hc Hh (cl' & H1 & H2 & H3). exists cl'.
  rewrite Hh, Hc. done.
Qed.

(** The whole loop, over keys that are pairwise distinct and all have an
    open mailbox: it completes, and each key's outcome is the one its own
    mailbox decides. *)
Lemma fan_out_spec m order w :
  NoDup order →
  (∀ c, c ∈ order → mailbox_open w c) →
  ∃ w', fan_out render order m w = Ok w' ∧
        messages (hub w') = messages (hub w) ∧
        trace w' = trace w ++ (order ≫= offer_log (render m) w) ∧
        (∀ c, c ∉ order → clients (hub w') !! c = clients (hub w) !! c ∧
                          heap w' !! c = heap w !! c) ∧
        (∀ c cl, c ∈ order → heap w !! c = Some cl →
                 offered (render m) (clients (hub w) !! c) cl w' c).
Proof.
  intros Hnd. revert w.
  induction Hnd as [|c rest Hnotin Hnd IH]; intros w Hopen.
  { exists w. simpl. rewrite app_nil_r. split_and!; [done..|].
    intros c cl Hin. by apply elem_of_nil in Hin. }
  destruct (proj1 (mailbox_open_lookup w c) (Hopen c ltac:(left))) as (cl & Hcl & Hcopen).
  destruct (offer_open (render m) c w cl Hcl Hcopen)
    as (w1 & Hoffer & Hmsg1 & Htr1 & Hother1 & Hmine1).
  assert (Hrest : ∀ c', c' ∈ rest → heap w1 !! c' = heap w !! c').
  { intros c' Hin. apply Hother1. intros ->. done. }
  destruct (IH w1) as (w' & Hfan & Hmsg & Htr & Hother & Hmine).
  { intros c' Hin. unfold mailbox_open. rewrite (Hrest c' Hin).
    apply Hopen. by right. }
  exists w'. simpl. rewrite Hoffer. simpl. split; [exact Hfan|].
  split; [congruence|]. split; [|split].
  - rewrite Htr, Htr1, (offer_log_ext _ w w1 rest Hrest).
    by rewrite <- app_assoc.
  - intros c' Hc'. apply not_elem_of_cons in Hc' as [Hne Hc'].
    destruct (Hother c' Hc') as [-> ->]. by apply Hother1.
  - intros c' cl' Hin Hcl'. apply elem_of_cons in Hin as [-> | Hin].
    + assert (cl' = cl) as -> by congruence.
      destruct (Hother c Hnotin) as [Hc1 Hh1].
      by apply (offered_ext _ _ _ w1 w').
    + assert (c' ≠ c) as Hne by (intros ->; done).
      destruct (Hother1 c' Hne) as [Hc1 Hh1].
      rewrite <- Hc1. apply Hmine; [done|]. by rewrite Hh1.
Qed.

(** ** The keys a [range] over the registry visits *)

Lemma range_keys_NoDup (reg : gmap loc bool) : NoDup (range_keys reg).
Proof. apply NoDup_fst_map_to_list. Qed.

Lemma elem_of_range_keys (reg : gmap loc bool) c :
  c ∈ range_keys reg ↔ is_Some (reg !! c).
Proof.
  unfold range_keys. rewrite list_elem_of_fmap. split.
  - intros ([c' v] & -> & Hin). apply elem_of_map_to_list in Hin. by exists v.
  - intros [v Hv]. exists (c, v). split; [done|]. by apply elem_of_map_to_list.
Qed.

Lemma order_NoDup (reg : gmap loc bool) order :
  order ≡ₚ range_keys reg → NoDup order.
Proof. intros ->. apply range_keys_NoDup. Qed.

Lemma elem_of_order (reg : gmap loc bool) order c :
  order ≡ₚ range_keys reg → c ∈ order ↔ is_Some (reg !! c).
Proof. intros ->. apply elem_of_range_keys. Qed.

(** ** The broadcast case on a live registry *)

Lemma on_broadcast_in_spec m order w :
  order ≡ₚ range_keys (clients (hub w)) →
  registry_live w →
  ∃ w', on_broadcast_in render order m w = Ok w' ∧
        messages (hub w') = messages (hub w) ++ [m] ∧
        trace w' = trace w ++ (order ≫= offer_log (render m) w) ∧
        (∀ c, clients (hub w) !! c = None →
              clients (hub w') !! c = None ∧ heap w' !! c = heap w !! c) ∧
        (∀ c v cl, clients (hub w) !! c = Some v → heap w !! c = Some cl →
                   offered (render m) (Some v) cl w' c).
Proof.
  intros Hperm Hlive. unfold on_broadcast_in.
  set (w0 := {| hub := {| clients := clients (hub w);
                          messages := messages (hub w) ++ [m] |};
                heap := heap w; trace := trace w |}).
  destruct (fan_out_spec m order w0) as (w' & Hfan & Hmsg & Htr & Hout & Hin).
  { by eapply order_NoDup. }
  { intros c Hc. apply (elem_of_order _ _ _ Hperm) in Hc as [v Hv].
    destruct (Hlive c v Hv) as [_ Ho]. exact Ho. }
  exists w'. split_and!; [done..| |].
  - intros c Hc. destruct (Hout c) as [H1 H2].
    { rewrite (elem_of_order _ _ _ Hperm), Hc. by intros [? ?]. }
    simpl in H1, H2. by rewrite H1, H2.
  - intros c v cl Hc Hcl. simpl in Hin. rewrite <- Hc. apply Hin; [|done].
    rewrite (elem_of_order _ _ _ Hperm). by exists v.
Qed.

Lemma client_eta (cl : Client.t) :
  cl = with_send cl (Client.send cl).
Proof. by destruct cl. Qed.

(** C1 (backpressure eviction).  On a live registry, visited in any order
    the runtime picks: when the non-blocking send of the rendered message
    to a registered client [c] is refused, the broadcast case still runs
    to completion, and in it the mailbox of [c] is closed and [c] leaves
    the registry; every registered client whose send is accepted stays
    registered and has the rendered message in its mailbox. *)
Theorem broadcast_evicts_refusing_client m order w c cl ch0 :
  order ≡ₚ range_keys (clients (hub w)) →
  registry_live w →
  is_Some (clients (hub w) !! c) →
  heap w !! c = Some cl →
  chansend_nb (Client.send cl) (render m) = Ok (false, ch0) →
  ∃ w' new,
    on_broadcast_in render order m w = Ok w' ∧
    trace w' = trace w ++ new ∧
    SendTried c (render m) false ∈ new ∧ Closed c ∈ new ∧
    clients (hub w') !! c = None ∧
    (∃ ch', closechan (Client.send cl) = Ok ch' ∧ closed ch' = true ∧
            heap w' !! c = Some (with_send cl ch')) ∧
    (∀ c2 cl2 ch2,
       is_Some (clients (hub w) !! c2) →
       heap w !! c2 = Some cl2 →
       chansend_nb (Client.send cl2) (render m) = Ok (true, ch2) →
       clients (hub w') !! c2 = clients (hub w) !! c2 ∧
       heap w' !! c2 = Some (with_send cl2 ch2) ∧
       closed ch2 = false ∧
       render m ∈ delivered ch2).
Proof.
  intros Hperm Hlive [v Hv] Hcl Hsend.
  destruct (on_broadcast_in_spec m order w Hperm Hlive)
    as (w' & Hrun & _ & Htr & _ & Hin).
  apply chansend_nb_rejected in Hsend as (Hopen & Hacc & ->).
  exists w', (order ≫= offer_log (render m) w).
  split_and!; [done | done | | | | |].
  - apply list_elem_of_bind. exists c. split.
    + unfold offer_log. rewrite Hcl, Hacc. left.
    + apply (elem_of_order _ _ _ Hperm). by exists v.
  - apply list_elem_of_bind. exists c. split.
    + unfold offer_log. rewrite Hcl, Hacc. right. left.
    + apply (elem_of_order _ _ _ Hperm). by exists v.
  - destruct (Hin c v cl Hv Hcl) as (cl' & _ & _ & Hcase).
    rewrite Hacc in Hcase. by destruct Hcase as (_ & _ & ?).
  - destruct (Hin c v cl Hv Hcl) as (cl' & Hcl' & Hid & Hcase).
    rewrite Hacc in Hcase. destruct Hcase as (_ & Hclose & _).
    exists (Client.send cl'). split; [done|]. split.
    + rewrite (closechan_open _ Hopen) in Hclose. by injection Hclose as <-.
    + rewrite Hcl'. f_equal. destruct cl'. unfold with_send. simpl in *. by rewrite Hid.
  - intros c2 cl2 ch2 [v2 Hv2] Hcl2 Hsend2.
    destruct (Hin c2 v2 cl2 Hv2 Hcl2) as (cl' & Hcl' & Hid & Hcase).
    pose proof (chansend_nb_accepted _ _ _ Hsend2) as (_ & Hopen2 & Hacc2 & _).
    rewrite Hacc2, Hsend2 in Hcase. destruct Hcase as [[= ->] Hreg].
    split_and!.
    + by rewrite Hreg, Hv2.
    + rewrite Hcl'. f_equal. destruct cl'. unfold with_send. simpl in *. by rewrite Hid.
    + done.
    + by eapply chansend_nb_delivers.
Qed.

(** C2 (sender-inclusive fan-out).  On a live registry, visited in any
    order the runtime picks, the broadcast case appends the message to the
    history and makes a non-blocking send of its rendering on the mailbox
    of every client in the registry, the client whose id the message
    carries included: the send has the outcome the mailbox decides, and
    the mailbox afterwards is the one that send leaves (or, after a
    refusal, the closed one).  It tries nothing else. *)
Theorem broadcast_offers_to_every_client m order w :
  order ≡ₚ range_keys (clients (hub w)) →
  registry_live w →
  ∃ w' new,
    on_broadcast_in render order m w = Ok w' ∧
    messages (hub w') = messages (hub w) ++ [m] ∧
    trace w' = trace w ++ new ∧
    (∀ c, is_Some (clients (hub w) !! c) →
          ∃ ok, SendTried c (render m) ok ∈ new) ∧
    (∀ c cl, is_Some (clients (hub w) !! c) → heap w !! c = Some cl →
             Client.id cl = ClientId m →
             ∃ ok, SendTried c (render m) ok ∈ new) ∧
    (∀ c b ok, SendTried c b ok ∈ new →
               b = render m ∧ is_Some (clients (hub w) !! c)) ∧
    (∀ c, is_Some (clients (hub w) !! c) →
          ∃ cl ok ch cl',
            heap w !! c = Some cl ∧
            chansend_nb (Client.send cl) (render m) = Ok (ok, ch) ∧
            SendTried c (render m) ok ∈ new ∧
            heap w' !! c = Some cl' ∧
            if ok
            then Client.send cl' = ch ∧
                 clients (hub w') !! c = clients (hub w) !! c
            else closechan (Client.send cl) = Ok (Client.send cl') ∧
                 clients (hub w') !! c = None).
Proof.
  intros Hperm Hlive.
  destruct (on_broadcast_in_spec m order w Hperm Hlive)
    as (w' & Hrun & Hmsg & Htr & _ & Hin).
  assert (Hsent : ∀ c cl, is_Some (clients (hub w) !! c) → heap w !! c = Some cl →
                  SendTried c (render m) (accepts (Client.send cl))
                  ∈ order ≫= offer_log (render m) w).
  { intros c cl [v Hv] Hcl. apply list_elem_of_bind. exists c. split.
    - unfold offer_log. rewrite Hcl. destruct (accepts (Client.send cl)); left.
    - apply (elem_of_order _ _ _ Hperm). by exists v. }
  assert (Hall : ∀ c, is_Some (clients (hub w) !! c) →
                 ∃ ok, SendTried c (render m) ok ∈ order ≫= offer_log (render m) w).
  { intros c [v Hv].
    destruct (registry_live_lookup w c v Hlive Hv) as (_ & cl & Hcl & _).
    exists (accepts (Client.send cl)). apply Hsent; by eauto. }
  exists w', (order ≫= offer_log (render m) w).
  split_and!; [done | done | done | exact Hall | | |].
  - intros c cl Hc _ _. by apply Hall.
  - intros c b ok Hin'. apply list_elem_of_bind in Hin' as (c' & Hin' & Hc').
    apply (elem_of_order _ _ _ Hperm) in Hc'.
    unfold offer_log in Hin'. destruct (heap w !! c') as [cl|].
    + destruct (accepts (Client.send cl)).
      * apply list_elem_of_singleton in Hin'. by injection Hin' as -> -> ->.
      * apply elem_of_cons in Hin' as [Hin' | Hin'].
        { by injection Hin' as -> -> ->. }
        apply list_elem_of_singleton in Hin'. discriminate.
    + by apply elem_of_nil in Hin'.
  - intros c [v Hv].
    destruct (registry_live_lookup w c v Hlive Hv) as (_ & cl & Hcl & _).
    destruct (Hin c v cl Hv Hcl) as (cl' & Hcl' & _ & Hcase).
    pose proof (Hsent c cl ltac:(by exists v) Hcl) as Htried.
    destruct (accepts (Client.send cl)).
    + destruct Hcase as [Hsend Hreg].
      exists cl, true, (Client.send cl'), cl'.
      split_and!; [done | done | done | done | done | by rewrite Hreg].
    + destruct Hcase as (Hsend & Hclose & Hreg).
      exists cl, false, (Client.send cl), cl'.
      split_and!; done.
Qed.

(** C7 (unregister).  On a live registry the unregister case completes.
    For a client in the registry it closes the client's mailbox and
    deletes the registry entry, leaving the history and every other
    client as they were; for a client not in the registry it changes
    nothing at all. *)
Theorem unregister_closes_present_ignores_absent c w :
  registry_live w →
  ∃ w', on_unregister c w = Ok w' ∧
    match clients (hub w) !! c with
    | Some _ =>
        ∃ cl ch, heap w !! c = Some cl ∧
                 closechan (Client.send cl) = Ok ch ∧ closed ch = true ∧
                 clients (hub w') = delete c (clients (hub w)) ∧
                 clients (hub w') !! c = None ∧
                 messages (hub w') = messages (hub w) ∧
                 heap w' = <[c := with_send cl ch]> (heap w) ∧
                 Closed c ∈ drop (length (trace w)) (trace w')
    | None => w' = w
    end.
Proof.
  intros Hlive. unfold on_unregister.
  destruct (clients (hub w) !! c) as [v|] eqn:Hv; [|by exists w].
  destruct (registry_live_lookup w c v Hlive Hv) as (_ & cl & Hcl & Hopen).
  unfold deref. rewrite Hcl. simpl. rewrite (closechan_open _ Hopen). simpl.
  eexists. split; [reflexivity|]. simpl.
  exists cl. eexists. split_and!.
  - done.
  - by apply closechan_open.
  - done.
  - done.
  - apply lookup_delete_eq.
  - done.
  - done.
  - rewrite drop_app_length. right. left.
Qed.

(** C9 (register is idempotent on a present client).  On a live registry,
    the register case for a client that is already in the registry leaves
    the registry, the history and every mailbox as they were. *)
Theorem register_present_is_idempotent c w :
  registry_live w →
  is_Some (clients (hub w) !! c) →
  ∃ w', on_register c w = Ok w' ∧
        clients (hub w') = clients (hub w) ∧
        hub w' = hub w ∧ heap w' = heap w.
Proof.
  intros Hlive [v Hv].
  destruct (registry_live_lookup w c v Hlive Hv) as (-> & cl & Hcl & _).
  unfold on_register, deref. rewrite Hcl. simpl.
  eexists. split; [reflexivity|]. simpl.
  rewrite (insert_id _ _ _ Hv). by destruct (hub w).
Qed.

(** ** The invariant of the running program *)

Lemma closechan_Ok ch ch' :
  closechan ch = Ok ch' → closed ch = false ∧ closed ch' = true.
Proof.
  unfold closechan. destruct (closed ch); [discriminate|].
  by intros [= <-].
Qed.

Lemma closes_app tr1 tr2 : closes (tr1 ++ tr2) = closes tr1 ++ closes tr2.
Proof. apply omap_app. Qed.

Lemma closes_offer_log b w c :
  closes (offer_log b w c) = [] ∨
  closes (offer_log b w c) = [c] ∧
  ∃ cl, heap w !! c = Some cl ∧ accepts (Client.send cl) = false.
Proof.
  unfold offer_log. destruct (heap w !! c) as [cl|]; [|by left].
  destruct (accepts (Client.send cl)) eqn:Hacc; [by left|].
  right. split; [done|]. by exists cl.
Qed.

Lemma elem_of_closes_fan_out b w (order : list loc) c :
  c ∈ closes (order ≫= offer_log b w) →
  c ∈ order ∧ ∃ cl, heap w !! c = Some cl ∧ accepts (Client.send cl) = false.
Proof.
  induction order as [|c' order IH]; simpl.
  { intros Hin. by apply elem_of_nil in Hin. }
  rewrite closes_app, elem_of_app. intros [Hin | Hin].
  - destruct (closes_offer_log b w c') as [Hnil | [Hone Hcl]].
    + rewrite Hnil in Hin. by apply elem_of_nil in Hin.
    + rewrite Hone in Hin. apply list_elem_of_singleton in Hin as ->.
      split; [left | done].
  - destruct (IH Hin) as [? ?]. split; [by right | done].
Qed.

Lemma NoDup_closes_fan_out b w (order : list loc) :
  NoDup order → NoDup (closes (order ≫= offer_log b w)).
Proof.
  induction 1 as [|c order Hnotin Hnd IH]; simpl; [constructor|].
  rewrite closes_app. apply NoDup_app. split_and!.
  - destruct (closes_offer_log b w c) as [-> | [-> _]].
    + constructor.
    + apply NoDup_singleton.
  - intros x Hx1 Hx2.
    apply elem_of_closes_fan_out in Hx2 as [Hx2 _].
    destruct (closes_offer_log b w c) as [Hnil | [Hone _]].
    + rewrite Hnil in Hx1. by apply elem_of_nil in Hx1.
    + rewrite Hone in Hx1. apply list_elem_of_singleton in Hx1 as ->. done.
  - done.
Qed.

Lemma boot_inv : world_inv boot.
Proof.
  split.
  - apply map_Forall_empty.
  - intros c Hc. by apply elem_of_nil in Hc.
  - constructor.
Qed.

(** A closed mailbox belongs to no client of a live registry. *)
Lemma closed_not_registered w c cl :
  registry_live w → heap w !! c = Some cl → closed (Client.send cl) = true →
  clients (hub w) !! c = None.
Proof.
  intros Hlive Hcl Hclosed.
  destruct (clients (hub w) !! c) as [v|] eqn:Hv; [|done].
  destruct (registry_live_lookup w c v Hlive Hv) as (_ & cl' & Hcl' & Hopen).
  congruence.
Qed.

Lemma serveWs_inv cid w :
  world_inv w →
  ∃ w', serveWs cid w = Ok w' ∧ world_inv w' ∧
        messages (hub w') = messages (hub w).
Proof.
  intros [Hlive Hclosed Honce]. unfold serveWs, on_register, deref. simpl.
  set (c := fresh (dom (heap w))).
  assert (Hfresh : heap w !! c = None).
  { apply not_elem_of_dom. apply is_fresh. }
  rewrite lookup_insert_eq. simpl.
  eexists. split; [reflexivity|]. split; [|done]. split; simpl.
  - intros c' v Hv. simpl in Hv. destruct (decide (c' = c)) as [-> | Hne].
    + rewrite lookup_insert_eq in Hv. injection Hv as <-. split; [done|].
      unfold mailbox_open. simpl. by rewrite lookup_insert_eq.
    + rewrite lookup_insert_ne in Hv by done.
      destruct (Hlive c' v Hv) as [-> Ho]. split; [done|].
      unfold mailbox_open in *. simpl. by rewrite lookup_insert_ne.
  - rewrite closes_app, app_nil_r. intros c' Hc'.
    destruct (Hclosed c' Hc') as (cl & Hcl & Hc).
    exists cl. split; [|done]. rewrite lookup_insert_ne; [done|]. congruence.
  - by rewrite closes_app, app_nil_r.
Qed.

Lemma on_unregister_inv c w :
  world_inv w →
  ∃ w', on_unregister c w = Ok w' ∧ world_inv w' ∧
        messages (hub w') = messages (hub w).
Proof.
  intros [Hlive Hclosed Honce]. unfold on_unregister.
  destruct (clients (hub w) !! c) as [v|] eqn:Hv; [|by exists w].
  destruct (registry_live_lookup w c v Hlive Hv) as (_ & cl & Hcl & Hopen).
  unfold deref. rewrite Hcl. simpl. rewrite (closechan_open _ Hopen). simpl.
  eexists. split; [reflexivity|]. split; [|done]. split; simpl.
  - intros c' v' Hv'. simpl in Hv'. destruct (decide (c' = c)) as [-> | Hne].
    + by rewrite lookup_delete_eq in Hv'.
    + rewrite lookup_delete_ne in Hv' by done.
      destruct (Hlive c' v' Hv') as [-> Ho]. split; [done|].
      unfold mailbox_open in *. simpl. by rewrite lookup_insert_ne.
  - rewrite closes_app. simpl. intros c' Hc'.
    apply elem_of_app in Hc' as [Hc' | Hc'].
    + destruct (Hclosed c' Hc') as (cl' & Hcl' & Hc).
      exists cl'. split; [|done]. rewrite lookup_insert_ne; [done|]. congruence.
    + apply list_elem_of_singleton in Hc' as ->.
      eexists. rewrite lookup_insert_eq. split; [reflexivity|done].
  - rewrite closes_app. simpl. apply NoDup_app. split_and!; [done| |apply NoDup_singleton].
    intros x Hx1 Hx2. apply list_elem_of_singleton in Hx2 as ->.
    destruct (Hclosed c Hx1) as (cl' & Hcl' & Hc). congruence.
Qed.

Lemma on_broadcast_inv m w :
  world_inv w →
  ∃ w', on_broadcast render m w = Ok w' ∧ world_inv w' ∧
        messages (hub w') = messages (hub w) ++ [m].
Proof.
  intros [Hlive Hclosed Honce]. unfold on_broadcast.
  destruct (on_broadcast_in_spec m (range_keys (clients (hub w))) w)
    as (w' & Hrun & Hmsg & Htr & Hout & Hin); [done..|].
  exists w'. split; [done|]. split; [|done]. split.
  - intros c v Hv.
    destruct (clients (hub w) !! c) as [v0|] eqn:Hv0.
    + destruct (registry_live_lookup w c v0 Hlive Hv0) as (-> & cl & Hcl & Hopen).
      destruct (Hin c true cl Hv0 Hcl) as (cl' & Hcl' & _ & Hcase).
      destruct (accepts (Client.send cl)).
      * destruct Hcase as [Hsend Hreg]. split; [congruence|].
        unfold mailbox_open. rewrite Hcl'.
        by apply chansend_nb_accepted in Hsend as (_ & ? & _).
      * destruct Hcase as (_ & _ & Hreg). congruence.
    + destruct (Hout c Hv0) as [Hreg _]. congruence.
  - rewrite Htr, closes_app. intros c Hc. apply elem_of_app in Hc as [Hc | Hc].
    + destruct (Hclosed c Hc) as (cl & Hcl & Hc').
      exists cl. split; [|done].
      destruct (Hout c (closed_not_registered w c cl Hlive Hcl Hc')) as [_ ->]. done.
    + apply elem_of_closes_fan_out in Hc as (Hord & cl & Hcl & Hacc).
      apply elem_of_range_keys in Hord as [v Hv].
      destruct (Hin c v cl Hv Hcl) as (cl' & Hcl' & _ & Hcase).
      rewrite Hacc in Hcase. destruct Hcase as (_ & Hclose & _).
      exists cl'. split; [done|]. by apply closechan_Ok in Hclose as [_ ?].
  - rewrite Htr, closes_app. apply NoDup_app. split_and!.
    + done.
    + intros c Hc1 Hc2.
      destruct (Hclosed c Hc1) as (cl & Hcl & Hc).
      apply elem_of_closes_fan_out in Hc2 as (Hord & _).
      apply elem_of_range_keys in Hord as [v Hv].
      pose proof (closed_not_registered w c cl Hlive Hcl Hc). congruence.
    + apply NoDup_closes_fan_out, range_keys_NoDup.
Qed.

(** The pumps act on a mailbox without opening or closing it. *)
Lemma mailbox_update_inv w c cl ch :
  heap w !! c = Some cl → closed ch = closed (Client.send cl) →
  world_inv w →
  world_inv {| hub := hub w; heap := <[c := with_send cl ch]> (heap w);
               trace := trace w |}.
Proof.
  intros Hcl Hsame [Hlive Hclosed Honce]. split; simpl; [| |done].
  - intros c' v Hv. simpl in Hv. destruct (Hlive c' v Hv) as [-> Ho]. split; [done|].
    unfold mailbox_open in *. simpl. destruct (decide (c' = c)) as [-> | Hne].
    + rewrite lookup_insert_eq. simpl. rewrite Hcl in Ho. congruence.
    + by rewrite lookup_insert_ne.
  - intros c' Hc'. destruct (Hclosed c' Hc') as (cl' & Hcl' & Hc).
    destruct (decide (c' = c)) as [-> | Hne].
    + eexists. rewrite lookup_insert_eq. split; [reflexivity|]. simpl. congruence.
    + exists cl'. by rewrite lookup_insert_ne.
Qed.

Lemma pump_recv_inv c w : world_inv w → world_inv (pump_recv c w).
Proof.
  intros Hinv. unfold pump_recv. destruct (heap w !! c) as [cl|] eqn:Hcl; [|done].
  apply mailbox_update_inv; [done| |done]. apply chanrecv_closed.
Qed.

Lemma pump_tick_inv c w : world_inv w → world_inv (pump_tick c w).
Proof.
  intros Hinv. unfold pump_tick. destruct (heap w !! c) as [cl|] eqn:Hcl; [|done].
  by apply mailbox_update_inv.
Qed.

Lemma pump_recv_messages c w : messages (hub (pump_recv c w)) = messages (hub w).
Proof. unfold pump_recv. by destruct (heap w !! c). Qed.

Lemma pump_tick_messages c w : messages (hub (pump_tick c w)) = messages (hub w).
Proof. unfold pump_tick. by destruct (heap w !! c). Qed.

Lemma broadcasts_cons e evs : broadcasts (e :: evs) = broadcasts [e] ++ broadcasts evs.
Proof. by destruct e. Qed.

Lemma step_inv e w :
  world_inv w →
  ∃ w', step render e w = Ok w' ∧ world_inv w' ∧
        messages (hub w') = messages (hub w) ++ broadcasts [e].
Proof.
  intros Hinv. destruct e as [cid | c | m | c | c]; simpl; rewrite ?app_nil_r.
  - by apply serveWs_inv.
  - by apply on_unregister_inv.
  - by apply on_broadcast_inv.
  - eexists. split; [reflexivity|]. split; [by apply pump_recv_inv|].
    apply pump_recv_messages.
  - eexists. split; [reflexivity|]. split; [by apply pump_tick_inv|].
    apply pump_tick_messages.
Qed.

Lemma run_inv evs w :
  world_inv w →
  ∃ w', run render evs w = Ok w' ∧ world_inv w' ∧
        messages (hub w') = messages (hub w) ++ broadcasts evs.
Proof.
  revert w. induction evs as [|e evs IH]; intros w Hinv.
  { exists w. simpl. by rewrite app_nil_r. }
  destruct (step_inv e w Hinv) as (w1 & Hstep & Hinv1 & Hmsg1).
  destruct (IH w1 Hinv1) as (w' & Hrun & Hinv' & Hmsg).
  exists w'. split_and!.
  - simpl. rewrite Hstep. exact Hrun.
  - done.
  - by rewrite Hmsg, Hmsg1, (broadcasts_cons e evs), app_assoc.
Qed.

(** The order in which [range] visits the registry does not matter: any
    order leaves the Hub and every mailbox as [on_broadcast] does, with
    the same effects up to their order. *)
Lemma on_broadcast_order_irrelevant m order w :
  order ≡ₚ range_keys (clients (hub w)) →
  registry_live w →
  ∃ w1 w2, on_broadcast_in render order m w = Ok w1 ∧
           on_broadcast render m w = Ok w2 ∧
           hub w1 = hub w2 ∧ heap w1 = heap w2 ∧ trace w1 ≡ₚ trace w2.
Proof.
  intros Hperm Hlive.
  destruct (on_broadcast_in_spec m order w Hperm Hlive)
    as (w1 & Hrun1 & Hmsg1 & Htr1 & Hout1 & Hin1).
  destruct (on_broadcast_in_spec m (range_keys (clients (hub w))) w
              ltac:(reflexivity) Hlive)
    as (w2 & Hrun2 & Hmsg2 & Htr2 & Hout2 & Hin2).
  exists w1, w2. split; [done|]. split; [done|].
  assert (Hpt : ∀ c, clients (hub w1) !! c = clients (hub w2) !! c ∧
                     heap w1 !! c = heap w2 !! c).
  { intros c. destruct (clients (hub w) !! c) as [v|] eqn:Hv.
    - destruct (registry_live_lookup w c v Hlive Hv) as (_ & cl & Hcl & _).
      destruct (Hin1 c v cl Hv Hcl) as (cl1 & Hcl1 & Hid1 & Hcase1).
      destruct (Hin2 c v cl Hv Hcl) as (cl2 & Hcl2 & Hid2 & Hcase2).
      rewrite Hcl1, Hcl2.
      assert (Client.send cl1 = Client.send cl2 ∧
              clients (hub w1) !! c = clients (hub w2) !! c) as [Hs Hr].
      { destruct (accepts (Client.send cl)).
        - destruct Hcase1 as [Hs1 Hr1], Hcase2 as [Hs2 Hr2].
          split; congruence.
        - destruct Hcase1 as (_ & Hs1 & Hr1), Hcase2 as (_ & Hs2 & Hr2).
          split; congruence. }
      split; [done|]. f_equal. destruct cl1, cl2. simpl in *. congruence.
    - destruct (Hout1 c Hv) as [-> ->], (Hout2 c Hv) as [-> ->]. done. }
  split_and!.
  - destruct (hub w1) as [r1 h1] eqn:E1, (hub w2) as [r2 h2] eqn:E2.
    simpl in *. f_equal; [|congruence].
    apply map_eq. intros c. apply Hpt.
  - apply map_eq. intros c. apply Hpt.
  - rewrite Htr1, Htr2. by rewrite Hperm.
Qed.

(** C3 (history monotonicity).  From any state of the running program,
    every sequence of events runs to completion and leaves as history the
    old history followed by the broadcast messages of the sequence, one
    entry per broadcast event in the order handled: no entry is removed
    or altered and the length never decreases. *)
Theorem history_is_append_only evs w :
  world_inv w →
  ∃ w', run render evs w = Ok w' ∧
        messages (hub w') = messages (hub w) ++ broadcasts evs ∧
        messages (hub w) `prefix_of` messages (hub w') ∧
        length (messages (hub w')) =
          length (messages (hub w)) + length (broadcasts evs) ∧
        length (messages (hub w)) ≤ length (messages (hub w')).
Proof.
  intros Hinv. destruct (run_inv evs w Hinv) as (w' & Hrun & _ & Hmsg).
  exists w'. rewrite Hmsg, length_app. split_and!; [done | done | | done | lia].
  by apply prefix_app_r.
Qed.

(** C10 (a mailbox is closed at most once).  Every sequence of events of
    the running program, started after [NewHub], runs to completion: no
    [close] ever meets a closed mailbox.  The clients closed along the way
    are pairwise distinct, and each of them is out of the registry with
    its mailbox closed. *)
Theorem mailbox_closed_at_most_once evs :
  ∃ w', run render evs boot = Ok w' ∧
        NoDup (closes (trace w')) ∧
        ∀ c, c ∈ closes (trace w') →
             clients (hub w') !! c = None ∧
             ∃ cl, heap w' !! c = Some cl ∧ closed (Client.send cl) = true.
Proof.
  destruct (run_inv evs boot boot_inv) as (w' & Hrun & [Hlive Hclosed Honce] & _).
  exists w'. split_and!; [done | done |].
  intros c Hc. destruct (Hclosed c Hc) as (cl & Hcl & Hcc).
  split; [by eapply closed_not_registered | by exists cl].
Qed.

(** The register case itself does not look at the mailbox: handed a
    client that was unregistered before, it puts the client back, and the
    next unregister closes the closed mailbox.  [serveWs], the only
    sender on [h.register], sends each client once. *)
Lemma register_again_then_unregister_panics c w w1 w2 :
  registry_live w → is_Some (clients (hub w) !! c) →
  on_unregister c w = Ok w1 → on_register c w1 = Ok w2 →
  on_unregister c w2 = Panic CloseOfClosedChannel.
Proof.
  intros Hlive [v Hv] H1 H2.
  destruct (registry_live_lookup w c v Hlive Hv) as (_ & cl & Hcl & Hopen).
  unfold on_unregister, deref in H1. rewrite Hv, Hcl in H1. simpl in H1.
  rewrite (closechan_open _ Hopen) in H1. simpl in H1. injection H1 as <-.
  unfold on_register, deref in H2. simpl in H2.
  rewrite lookup_insert_eq in H2. simpl in H2. injection H2 as <-.
  unfold on_unregister, deref. simpl.
  by rewrite !lookup_insert_eq.
Qed.

End HubProperties.

(** ** Timing constants *)

(** C8 (keepalive timing).  [pingPeriod] is nine tenths of [pongWait]:
    54 seconds against 60, so strictly smaller; the product formed on the
    way fits a [time.Duration]. *)
Theorem pingPeriod_is_nine_tenths_of_pongWait :
  (pongWait = 60 * Second ∧
   pingPeriod * 10 = pongWait * 9 ∧
   pingPeriod = 54 * Second ∧
   pingPeriod < pongWait ∧
   pongWait * 9 ≤ int64_max)%Z.
Proof. unfold pingPeriod, pongWait, Second, int64_max. vm_compute. by split_and!. Qed.

(** ** The inbound pump *)

Lemma readPump_init_deadline now conn :
  readDeadline (readPump_init now conn) = (now + pongWait)%Z.
Proof. reflexivity. Qed.

Lemma readPump_init_limit now conn :
  readLimit (readPump_init now conn) = 512%Z.
Proof. reflexivity. Qed.

(** The closure is installed for pings; the pong handler stays the
    default one. *)
Lemma readPump_init_handlers now :
  handlePing (readPump_init now newConn) = ExtendReadDeadline ∧
  handlePong (readPump_init now newConn) = DefaultHandler.
Proof. by split. Qed.

(** A ping from the peer moves the deadline. *)
Lemma ping_extends_read_deadline t0 t1 d :
  readDeadline (recv_control t1 (PingMessage d) (readPump_init t0 newConn))
  = (t1 + pongWait)%Z.
Proof. reflexivity. Qed.

(** A pong from the peer leaves the deadline where the start of the pump
    put it. *)
Lemma pong_keeps_read_deadline t0 t1 d :
  recv_control t1 (PongMessage d) (readPump_init t0 newConn)
  = readPump_init t0 newConn.
Proof. reflexivity. Qed.

(** C4 (read deadline).  The pump started at instant 0 sets the deadline
    to 60 s; a pong received at 30 s leaves it at 60 s, not at 90 s. *)
Theorem pong_does_not_refresh_read_deadline :
  readDeadline (readPump_init 0 newConn) = (0 + pongWait)%Z ∧
  readDeadline (recv_control (30 * Second) (PongMessage "") (readPump_init 0 newConn))
    = (60 * Second)%Z ∧
  readDeadline (recv_control (30 * Second) (PongMessage "") (readPump_init 0 newConn))
    ≠ (30 * Second + pongWait)%Z.
Proof. split_and!; [reflexivity | reflexivity | by vm_compute]. Qed.

(** *** Decoding *)


(** A frame without a complete JSON value fails to decode and leaves the
    target untouched. *)
Lemma Decode_NoValue target : Decode NoValue target = (Some target, true).
Proof. reflexivity. Qed.

(** The frame [null] decodes without error and sets the pointer to nil;
    the pump then reads [msg.Text] through it. *)
Lemma readPump_iter_null cid text :
  readPump_iter cid (ReadFrame text (Value JNull)) = Panic NilDereference.
Proof. reflexivity. Qed.


(** A key that only folds to [HEADERS], through the long s, selects that
    field: the number under it does not fit, the decode fails, and the
    text stored after it goes out. *)
Lemma long_s_selects_HEADERS :
  key_matches long_s_key "HEADERS" = true ∧
  (Decode long_s_view zeroWSMessage).2 = true ∧
  readPump_iter "A" (ReadFrame "" long_s_view)
  = Ok {| logs := [LogValue ""; LogError];
          submitted := Some {| ClientId := "A"; Text := "yo" |};
          next := Continue |}.
Proof. split_and!; reflexivity. Qed.

(** The Kelvin sign folds to [K], and letter case is set aside. *)
Lemma fold_name_examples :
  fold_name "Text" = "TEXT"%string ∧
  fold_name long_s_key = "HEADERS"%string ∧
  fold_name (String "226"%char (String "132"%char (String "170"%char "ey"))) = "KEY"%string.
Proof. split_and!; reflexivity. Qed.


(** ** The outbound pump *)

Lemma append_cons x (a b : bytes) : String x a +:+ b = String x (a +:+ b).
Proof. reflexivity. Qed.

Lemma append_assoc_bytes (a b c : bytes) : (a +:+ b) +:+ c = a +:+ (b +:+ c).
Proof. induction a as [|x a IH]; [done|]. by rewrite !append_cons, IH. Qed.

Lemma append_empty_r (a : bytes) : a +:+ "" = a.
Proof. induction a as [|x a IH]; [done|]. by rewrite append_cons, IH. Qed.

Lemma write_again_copies n msg w : write_again n msg w = w +:+ copies n msg.
Proof.
  revert w. induction n as [|n IH]; intros w; simpl.
  - by rewrite append_empty_r.
  - by rewrite IH, append_assoc_bytes.
Qed.

(** The frame the receive case writes: the message, then as many more
    copies of that same message as the mailbox holds elements; the
    mailbox keeps them all. *)
Lemma writePump_onSend_frame now msg ch conn :
  writePump_onSend now msg true ch false false conn
  = (WriteFrame (TextMessage (msg +:+ copies (chanlen ch) msg))
       (SetWriteDeadline (now + writeWait) conn),
     ch, Continue).
Proof. unfold writePump_onSend. simpl. by rewrite write_again_copies. Qed.

(** With nothing queued, as on the unbuffered mailbox [serveWs] makes,
    the frame is the message alone, which is also what the coalescing
    step of the specification gives. *)
Lemma writePump_onSend_empty_queue now msg ch conn :
  qbuf ch = [] →
  writePump_onSend now msg true ch false false conn
  = (WriteFrame (TextMessage msg) (SetWriteDeadline (now + writeWait) conn),
     ch, Continue) ∧
  coalesce_spec msg ch = (msg, ch).
Proof.
  intros Hq. rewrite writePump_onSend_frame. unfold chanlen, coalesce_spec.
  rewrite Hq. simpl. rewrite append_empty_r. split; [done|].
  destruct ch. simpl in *. by subst.
Qed.

(** On a mailbox made with room, which [serveWs] never makes, the two
    part ways: with [b] and [c] queued behind it, the message [a] goes out
    as the frame [aaa] and the mailbox still holds [b] and [c], where the
    coalescing step of the specification writes [abc] and leaves the
    mailbox empty. *)
Theorem writePump_burst_repeats_first_message :
  writePump_onSend 0 "a" true backlog false false newConn
  = (WriteFrame (TextMessage "aaa") (SetWriteDeadline writeWait newConn),
     backlog, Continue) ∧
  coalesce_spec "a" backlog = ("abc"%string, Chan 4 [] 0 [] false).
Proof. split; reflexivity. Qed.

(** ** Instances on sample data *)

Lemma two_clients_live : registry_live two_clients.
Proof. apply (bool_decide_unpack _). vm_compute. exact I. Qed.

Lemma broadcast_evicts_refusing_client_witness :
  registry_live two_clients ∧
  ∃ w', on_broadcast_in sample_render (range_keys (clients (hub two_clients)))
          hi two_clients = Ok w' ∧
        clients (hub w') !! 1%positive = None ∧
        clients (hub w') !! 2%positive = Some true.
Proof.
  split; [exact two_clients_live|].
  destruct (broadcast_evicts_refusing_client sample_render hi
              (range_keys (clients (hub two_clients))) two_clients 1%positive
              {| Client.id := "A"; Client.send := make_chan 0 |} (make_chan 0))
    as (w' & new & Hrun & _ & _ & _ & Hgone & _ & Hothers).
  - reflexivity.
  - exact two_clients_live.
  - exists true. reflexivity.
  - reflexivity.
  - reflexivity.
  - exists w'. split; [exact Hrun|]. split; [exact Hgone|].
    destruct (Hothers 2%positive
                {| Client.id := "B"; Client.send := Chan 0 [] 1 [] false |}
                (Chan 0 [] 0 ["A: hi"%string] false)) as (Hreg & _).
    + exists true. reflexivity.
    + reflexivity.
    + reflexivity.
    + etrans; [exact Hreg | reflexivity].
Defined.

Lemma broadcast_offers_to_every_client_witness :
  registry_live two_clients ∧
  ∃ w', on_broadcast_in sample_render (range_keys (clients (hub two_clients)))
          hi two_clients = Ok w' ∧
        messages (hub w') = [hi].
Proof.
  split; [exact two_clients_live|].
  destruct (broadcast_offers_to_every_client sample_render hi
              (range_keys (clients (hub two_clients))) two_clients)
    as (w' & new & Hrun & Hmsg & _).
  - reflexivity.
  - exact two_clients_live.
  - exists w'. split; [exact Hrun | exact Hmsg].
Defined.

Lemma unregister_closes_present_ignores_absent_witness :
  registry_live two_clients ∧
  ∃ w', on_unregister 1%positive two_clients = Ok w' ∧
        clients (hub w') !! 1%positive = None.
Proof.
  split; [exact two_clients_live|].
  destruct (unregister_closes_present_ignores_absent 1%positive two_clients
              two_clients_live) as (w' & Hrun & Hcase).
  exists w'. split; [exact Hrun|].
  change (clients (hub two_clients) !! 1%positive) with (Some true) in Hcase.
  destruct Hcase as (cl & ch & _ & _ & _ & _ & Hgone & _). exact Hgone.
Defined.

Lemma register_present_is_idempotent_witness :
  registry_live two_clients ∧
  ∃ w', on_register 2%positive two_clients = Ok w' ∧ hub w' = hub two_clients.
Proof.
  split; [exact two_clients_live|].
  destruct (register_present_is_idempotent 2%positive two_clients
              two_clients_live) as (w' & Hrun & _ & Hhub & _).
  - exists true. reflexivity.
  - exists w'. split; [exact Hrun | exact Hhub].
Defined.

Lemma history_is_append_only_witness :
  world_inv boot ∧
  ∃ w', run sample_render
          [EvServeWs "A"; EvBroadcast hi; EvUnregister 1%positive; EvBroadcast hi]
          boot = Ok w' ∧
        messages (hub w') = [hi; hi].
Proof.
  split; [exact boot_inv|].
  destruct (history_is_append_only sample_render
              [EvServeWs "A"; EvBroadcast hi; EvUnregister 1%positive; EvBroadcast hi]
              boot boot_inv) as (w' & Hrun & Hmsg & _).
  exists w'. split; [exact Hrun | exact Hmsg].
Defined.


(** * Further properties of the Hub loop *)

Section HubProgram.

Variable render : Message → bytes.

(** After a broadcast the registry holds exactly the clients it held
    before whose mailbox took the message: a broadcast adds no client and
    drops every refusing one. *)
Theorem broadcast_keeps_exactly_accepting_clients m order w :
  order ≡ₚ range_keys (clients (hub w)) →
  registry_live w →
  ∃ w', on_broadcast_in render order m w = Ok w' ∧
        ∀ c, is_Some (clients (hub w') !! c) ↔
             is_Some (clients (hub w) !! c) ∧
             ∃ cl, heap w !! c = Some cl ∧ accepts (Client.send cl) = true.
Proof.
  intros Hperm Hlive.
  destruct (on_broadcast_in_spec render m order w Hperm Hlive)
    as (w' & Hrun & _ & _ & Hout & Hin).
  exists w'. split; [done|]. intros c.
  destruct (clients (hub w) !! c) as [v|] eqn:Hv.
  - destruct (registry_live_lookup w c v Hlive Hv) as (_ & cl & Hcl & _).
    destruct (Hin c v cl Hv Hcl) as (cl' & _ & _ & Hcase).
    destruct (accepts (Client.send cl)) eqn:Hacc.
    + destruct Hcase as [_ ->]. split; [|by eauto].
      intros _. split; [by eauto|]. by exists cl.
    + destruct Hcase as (_ & _ & ->). split.
      * by intros [? ?].
      * intros (_ & cl2 & Hcl2 & Hacc2). congruence.
  - destruct (Hout c Hv) as [-> _]. split.
    + by intros [? ?].
    + by intros [[? ?] _].
Qed.

(** A broadcast puts exactly one copy of the rendered message into the
    mailbox of each registered client that takes it, handed to the parked
    reader or appended to the queue; it puts nothing into a mailbox that
    refuses, and leaves the clients outside the registry as they are. *)
Theorem broadcast_delivers_one_copy m order w :
  order ≡ₚ range_keys (clients (hub w)) →
  registry_live w →
  ∃ w', on_broadcast_in render order m w = Ok w' ∧
    (∀ c, clients (hub w) !! c = None → heap w' !! c = heap w !! c) ∧
    (∀ c cl, is_Some (clients (hub w) !! c) → heap w !! c = Some cl →
       ∃ cl', heap w' !! c = Some cl' ∧
         (if accepts (Client.send cl)
          then handed (Client.send cl') = handed (Client.send cl) ++ [render m] ∧
               qbuf (Client.send cl') = qbuf (Client.send cl) ∨
               handed (Client.send cl') = handed (Client.send cl) ∧
               qbuf (Client.send cl') = qbuf (Client.send cl) ++ [render m]
          else handed (Client.send cl') = handed (Client.send cl) ∧
               qbuf (Client.send cl') = qbuf (Client.send cl)) ∧
         length (delivered (Client.send cl'))
         = length (delivered (Client.send cl)) +
           (if accepts (Client.send cl) then 1 else 0)).
Proof.
  intros Hperm Hlive.
  destruct (on_broadcast_in_spec render m order w Hperm Hlive)
    as (w' & Hrun & _ & _ & Hout & Hin).
  exists w'. split; [done|]. split.
  { intros c Hc. by destruct (Hout c Hc). }
  intros c cl [v Hv] Hcl.
  destruct (Hin c v cl Hv Hcl) as (cl' & Hcl' & _ & Hcase).
  exists cl'. split; [done|]. unfold delivered.
  destruct (accepts (Client.send cl)).
  - destruct Hcase as [Hsend _].
    apply chansend_nb_accepted in Hsend as (_ & _ & _ & _ & Hd).
    split; [done|].
    destruct Hd as [[-> ->] | [-> ->]]; rewrite !length_app; simpl; lia.
  - destruct Hcase as (_ & Hclose & _).
    unfold closechan in Hclose. destruct (closed (Client.send cl)); [discriminate|].
    injection Hclose as Hclose. rewrite <- Hclose. simpl. split; [done | lia].
Qed.

(** Unregistering twice is unregistering once: the second event finds the
    client gone and changes nothing. *)
Theorem unregister_twice_is_unregister_once c w :
  registry_live w →
  ∃ w1, on_unregister c w = Ok w1 ∧ on_unregister c w1 = Ok w1.
Proof.
  intros Hlive. unfold on_unregister at 1.
  destruct (clients (hub w) !! c) as [v|] eqn:Hv.
  - destruct (registry_live_lookup w c v Hlive Hv) as (_ & cl & Hcl & Hopen).
    unfold deref. rewrite Hcl. simpl. rewrite (closechan_open _ Hopen). simpl.
    eexists. split; [reflexivity|]. unfold on_unregister. simpl.
    by rewrite lookup_delete_eq.
  - exists w. split; [done|]. unfold on_unregister. by rewrite Hv.
Qed.

(** The unregister that the inbound pump sends after the Hub has evicted
    its client changes nothing: the mailbox is not closed a second time. *)
Theorem unregister_after_eviction_is_noop m order w c cl ch0 :
  order ≡ₚ range_keys (clients (hub w)) →
  registry_live w →
  is_Some (clients (hub w) !! c) →
  heap w !! c = Some cl →
  chansend_nb (Client.send cl) (render m) = Ok (false, ch0) →
  ∃ w', on_broadcast_in render order m w = Ok w' ∧
        on_unregister c w' = Ok w'.
Proof.
  intros Hperm Hlive [v Hv] Hcl Hsend.
  destruct (on_broadcast_in_spec render m order w Hperm Hlive)
    as (w' & Hrun & _ & _ & _ & Hin).
  apply chansend_nb_rejected in Hsend as (_ & Hacc & _).
  destruct (Hin c v cl Hv Hcl) as (cl' & _ & _ & Hcase).
  rewrite Hacc in Hcase. destruct Hcase as (_ & _ & Hgone).
  exists w'. split; [done|]. unfold on_unregister. by rewrite Hgone.
Qed.

(** A broadcast with nobody registered only extends the history. *)
Theorem broadcast_to_empty_registry m w :
  clients (hub w) = ∅ →
  on_broadcast render m w
  = Ok {| hub := {| clients := ∅; messages := messages (hub w) ++ [m] |};
          heap := heap w; trace := trace w |}.
Proof.
  intros Hempty. unfold on_broadcast, on_broadcast_in, range_keys.
  rewrite Hempty, map_to_list_empty. reflexivity.
Qed.

Lemma chansend_nb_unbuffered ch v ch' :
  dataqsiz ch = 0 → chansend_nb ch v = Ok (true, ch') →
  dataqsiz ch' = 0 ∧ qbuf ch' = qbuf ch ∧ recvq ch' = pred (recvq ch).
Proof.
  intros Hcap. unfold chansend_nb.
  destruct (closed ch); [discriminate|].
  destruct (bool_decide (0 < recvq ch)); simpl.
  { by intros [= <-]. }
  rewrite Hcap. rewrite bool_decide_false by lia. discriminate.
Qed.

(** On the unbuffered mailbox [serveWs] makes, a message can only pass to
    a reader parked in its [select].  So of two broadcasts with no pump
    step between them, the second finds nobody parked: whoever was in the
    registry with at most one parked reader is out of it afterwards. *)
Theorem back_to_back_broadcasts_evict m1 m2 w c cl :
  world_inv w →
  is_Some (clients (hub w) !! c) →
  heap w !! c = Some cl →
  dataqsiz (Client.send cl) = 0 →
  recvq (Client.send cl) ≤ 1 →
  ∃ w1 w2, on_broadcast render m1 w = Ok w1 ∧
           on_broadcast render m2 w1 = Ok w2 ∧
           clients (hub w2) !! c = None.
Proof.
  intros Hinv [v Hv] Hcl Hcap Hrecv.
  destruct (on_broadcast_inv render m1 w Hinv) as (w1 & Hrun1 & Hinv1 & _).
  destruct (on_broadcast_inv render m2 w1 Hinv1) as (w2 & Hrun2 & _ & _).
  exists w1, w2. split; [done|]. split; [done|].
  destruct (on_broadcast_in_spec render m1 (range_keys (clients (hub w))) w
              ltac:(reflexivity) (inv_live w Hinv))
    as (w1' & Hrun1' & _ & _ & _ & Hin1).
  unfold on_broadcast in Hrun1. rewrite Hrun1 in Hrun1'. injection Hrun1' as <-.
  destruct (on_broadcast_in_spec render m2 (range_keys (clients (hub w1))) w1
              ltac:(reflexivity) (inv_live w1 Hinv1))
    as (w2' & Hrun2' & _ & _ & Hout2 & Hin2).
  unfold on_broadcast in Hrun2. rewrite Hrun2 in Hrun2'. injection Hrun2' as <-.
  destruct (Hin1 c v cl Hv Hcl) as (cl1 & Hcl1 & _ & Hcase1).
  destruct (accepts (Client.send cl)).
  - destruct Hcase1 as [Hsend1 Hreg1].
    destruct (chansend_nb_unbuffered _ _ _ Hcap Hsend1) as (Hcap1 & Hq1 & Hr1).
    destruct (Hin2 c v cl1 Hreg1 Hcl1) as (cl2 & _ & _ & Hcase2).
    assert (Hacc1 : accepts (Client.send cl1) = false).
    { unfold accepts. rewrite Hcap1, Hr1.
      rewrite !bool_decide_false by lia. done. }
    rewrite Hacc1 in Hcase2. by destruct Hcase2 as (_ & _ & ?).
  - destruct Hcase1 as (_ & _ & Hgone1). by destruct (Hout2 c Hgone1).
Qed.

(** ** Connecting and disconnecting *)

Lemma fresh_client_unknown w :
  world_inv w →
  heap w !! fresh (dom (heap w)) = None ∧
  clients (hub w) !! fresh (dom (heap w)) = None.
Proof.
  intros Hinv.
  assert (Hfresh : heap w !! fresh (dom (heap w)) = None).
  { apply not_elem_of_dom. apply is_fresh. }
  split; [done|].
  destruct (clients (hub w) !! fresh (dom (heap w))) as [v|] eqn:Hv; [|done].
  destruct (registry_live_lookup w _ v (inv_live w Hinv) Hv) as (_ & cl & Hcl & _).
  congruence.
Qed.

Lemma serveWs_result cid w :
  serveWs cid w
  = Ok {| hub := {| clients := <[fresh (dom (heap w)) := true]> (clients (hub w));
                    messages := messages (hub w) |};
          heap := <[fresh (dom (heap w)) :=
                      {| Client.id := cid; Client.send := make_chan 0 |}]> (heap w);
          trace := trace w ++ [Logged (LogConnected cid)] |}.
Proof. unfold serveWs, on_register, deref. simpl. by rewrite lookup_insert_eq. Qed.

Lemma on_unregister_present c w v cl :
  clients (hub w) !! c = Some v → heap w !! c = Some cl →
  closed (Client.send cl) = false →
  on_unregister c w
  = Ok {| hub := {| clients := delete c (clients (hub w));
                    messages := messages (hub w) |};
          heap := <[c := with_send cl (Chan (dataqsiz (Client.send cl))
                                         (qbuf (Client.send cl)) 0
                                         (handed (Client.send cl)) true)]> (heap w);
          trace := trace w ++ [Logged (LogDisconnected (Client.id cl)); Closed c] |}.
Proof.
  intros Hv Hcl Hopen. unfold on_unregister, deref. rewrite Hv, Hcl. simpl.
  by rewrite (closechan_open _ Hopen).
Qed.

Lemma on_unregister_absent c w :
  clients (hub w) !! c = None → on_unregister c w = Ok w.
Proof. intros Hv. unfold on_unregister. by rewrite Hv. Qed.

(** [serveWs] brings in one client that was not there before: a new
    registry entry and a new open, empty, unbuffered mailbox under the
    given id; every client already there keeps its entry and its mailbox,
    and the history is untouched. *)
Theorem serveWs_adds_one_fresh_client cid w :
  world_inv w →
  ∃ w' c, serveWs cid w = Ok w' ∧
          heap w !! c = None ∧ clients (hub w) !! c = None ∧
          heap w' = <[c := {| Client.id := cid; Client.send := make_chan 0 |}]> (heap w) ∧
          clients (hub w') = <[c := true]> (clients (hub w)) ∧
          size (clients (hub w')) = S (size (clients (hub w))) ∧
          messages (hub w') = messages (hub w).
Proof.
  intros Hinv. destruct (fresh_client_unknown w Hinv) as [Hh Hc].
  eexists. exists (fresh (dom (heap w))).
  split; [apply serveWs_result|]. simpl.
  split_and!; [done..| |done]. by apply map_size_insert_None.
Qed.

(** A client that connects and is unregistered right away leaves the
    registry, the history and every other client as they were; what
    stays behind is its own, closed, mailbox. *)
Theorem connect_then_unregister_restores_registry cid w :
  world_inv w →
  ∃ w1 w2 c, serveWs cid w = Ok w1 ∧ on_unregister c w1 = Ok w2 ∧
             heap w !! c = None ∧
             hub w2 = hub w ∧
             (∀ c', c' ≠ c → heap w2 !! c' = heap w !! c') ∧
             (∃ cl, heap w2 !! c = Some cl ∧ closed (Client.send cl) = true).
Proof.
  intros Hinv. destruct (fresh_client_unknown w Hinv) as [Hh Hc].
  set (c := fresh (dom (heap w))) in *.
  eexists. eexists. exists c. split; [apply serveWs_result|].
  split.
  { eapply on_unregister_present; simpl.
    - apply lookup_insert_eq.
    - apply lookup_insert_eq.
    - done. }
  simpl. split_and!.
  - done.
  - fold c. rewrite delete_insert_eq, delete_id by done. by destruct (hub w).
  - intros c' Hne. fold c. by rewrite !lookup_insert_ne.
  - eexists. fold c. rewrite lookup_insert_eq. by split.
Qed.

(** ** The invariant, continued *)

Lemma boot_pinv : program_inv boot.
Proof.
  split.
  - apply boot_inv.
  - intros c cl Hcl. unfold boot in Hcl. simpl in Hcl. by rewrite lookup_empty in Hcl.
  - intros c cl Hcl. unfold boot in Hcl. simpl in Hcl. by rewrite lookup_empty in Hcl.
Qed.

Lemma serveWs_pinv cid w :
  program_inv w → ∃ w', serveWs cid w = Ok w' ∧ program_inv w'.
Proof.
  intros [Hinv Hreg Hunb].
  destruct (serveWs_inv cid w Hinv) as (w' & Hrun & Hinv' & _).
  exists w'. split; [done|].
  rewrite serveWs_result in Hrun. injection Hrun as <-.
  split; [done| |]; simpl.
  - intros c cl Hcl Hopen. destruct (decide (c = fresh (dom (heap w)))) as [-> | Hne].
    + rewrite lookup_insert_eq. by eauto.
    + rewrite lookup_insert_ne in Hcl by done. rewrite lookup_insert_ne by done.
      by eapply Hreg.
  - intros c cl Hcl. destruct (decide (c = fresh (dom (heap w)))) as [-> | Hne].
    + rewrite lookup_insert_eq in Hcl. by injection Hcl as <-.
    + rewrite lookup_insert_ne in Hcl by done. by eapply Hunb.
Qed.

Lemma on_unregister_pinv c w :
  program_inv w → ∃ w', on_unregister c w = Ok w' ∧ program_inv w'.
Proof.
  intros [Hinv Hreg Hunb].
  destruct (on_unregister_inv c w Hinv) as (w' & Hrun & Hinv' & _).
  exists w'. split; [done|].
  destruct (clients (hub w) !! c) as [v|] eqn:Hv.
  - destruct (registry_live_lookup w c v (inv_live w Hinv) Hv) as (_ & cl & Hcl & Hopen).
    rewrite (on_unregister_present c w v cl Hv Hcl Hopen) in Hrun. injection Hrun as <-.
    split; [done| |]; simpl.
    + intros c' cl' Hcl' Hopen'. destruct (decide (c' = c)) as [-> | Hne].
      * rewrite lookup_insert_eq in Hcl'. injection Hcl' as <-. done.
      * rewrite lookup_insert_ne in Hcl' by done. rewrite lookup_delete_ne by done.
        by eapply Hreg.
    + intros c' cl' Hcl'. destruct (decide (c' = c)) as [-> | Hne].
      * rewrite lookup_insert_eq in Hcl'. injection Hcl' as <-. simpl. by eapply Hunb.
      * rewrite lookup_insert_ne in Hcl' by done. by eapply Hunb.
  - rewrite (on_unregister_absent c w Hv) in Hrun. injection Hrun as <-. by split.
Qed.

Lemma on_broadcast_pinv m w :
  program_inv w → ∃ w', on_broadcast render m w = Ok w' ∧ program_inv w'.
Proof.
  intros [Hinv Hreg Hunb].
  destruct (on_broadcast_inv render m w Hinv) as (w' & Hrun & Hinv' & _).
  exists w'. split; [done|].
  destruct (on_broadcast_in_spec render m (range_keys (clients (hub w))) w
              ltac:(reflexivity) (inv_live w Hinv))
    as (w'' & Hrun' & _ & _ & Hout & Hin).
  unfold on_broadcast in Hrun. rewrite Hrun in Hrun'. injection Hrun' as <-.
  split; [done| |].
  - intros c cl' Hcl' Hopen'.
    destruct (clients (hub w) !! c) as [v|] eqn:Hv.
    + destruct (registry_live_lookup w c v (inv_live w Hinv) Hv) as (_ & cl & Hcl & _).
      destruct (Hin c v cl Hv Hcl) as (cl1 & Hcl1 & _ & Hcase).
      assert (cl1 = cl') as -> by congruence.
      destruct (accepts (Client.send cl)).
      * destruct Hcase as [_ ->]. by eauto.
      * destruct Hcase as (_ & Hclose & _).
        apply closechan_Ok in Hclose as [_ Hclosed]. congruence.
    + destruct (Hout c Hv) as [_ Hsame]. rewrite Hsame in Hcl'.
      destruct (Hreg c cl' Hcl' Hopen') as [v' Hv']. congruence.
  - intros c cl' Hcl'.
    destruct (clients (hub w) !! c) as [v|] eqn:Hv.
    + destruct (registry_live_lookup w c v (inv_live w Hinv) Hv) as (_ & cl & Hcl & _).
      destruct (Hin c v cl Hv Hcl) as (cl1 & Hcl1 & _ & Hcase).
      assert (cl1 = cl') as -> by congruence.
      destruct (Hunb c cl Hcl) as [Hcap Hq].
      destruct (accepts (Client.send cl)).
      * destruct Hcase as [Hsend _].
        destruct (chansend_nb_unbuffered _ _ _ Hcap Hsend) as (? & ? & _).
        split; congruence.
      * destruct Hcase as (_ & Hclose & _).
        unfold closechan in Hclose. destruct (closed (Client.send cl)); [discriminate|].
        injection Hclose as Hclose. rewrite <- Hclose. simpl. done.
    + destruct (Hout c Hv) as [_ Hsame]. rewrite Hsame in Hcl'. by eapply Hunb.
Qed.

Lemma mailbox_update_pinv w c cl ch :
  heap w !! c = Some cl → closed ch = closed (Client.send cl) →
  dataqsiz ch = dataqsiz (Client.send cl) → qbuf ch = [] →
  program_inv w →
  program_inv {| hub := hub w; heap := <[c := with_send cl ch]> (heap w);
                 trace := trace w |}.
Proof.
  intros Hcl Hsame Hcap Hq [Hinv Hreg Hunb].
  split; [by apply mailbox_update_inv| |]; simpl.
  - intros c' cl' Hcl' Hopen'. destruct (decide (c' = c)) as [-> | Hne].
    + rewrite lookup_insert_eq in Hcl'. injection Hcl' as <-. simpl in Hopen'.
      eapply Hreg; [done|]. congruence.
    + rewrite lookup_insert_ne in Hcl' by done. by eapply Hreg.
  - intros c' cl' Hcl'. destruct (decide (c' = c)) as [-> | Hne].
    + rewrite lookup_insert_eq in Hcl'. injection Hcl' as <-. simpl.
      destruct (Hunb c cl Hcl) as [? _]. split; congruence.
    + rewrite lookup_insert_ne in Hcl' by done. by eapply Hunb.
Qed.

Lemma step_pinv e w :
  program_inv w → ∃ w', step render e w = Ok w' ∧ program_inv w'.
Proof.
  intros Hp. destruct e as [cid | c | m | c | c]; simpl.
  - by apply serveWs_pinv.
  - by apply on_unregister_pinv.
  - by apply on_broadcast_pinv.
  - eexists. split; [reflexivity|]. unfold pump_recv.
    destruct (heap w !! c) as [cl|] eqn:Hcl; [|done].
    destruct (pinv_unbuffered w Hp c cl Hcl) as [Hcap Hq].
    apply mailbox_update_pinv; [done | apply chanrecv_closed | | | done].
    + unfold chanrecv. rewrite Hq. by destruct (closed (Client.send cl)).
    + unfold chanrecv. rewrite Hq. by destruct (closed (Client.send cl)).
  - eexists. split; [reflexivity|]. unfold pump_tick.
    destruct (heap w !! c) as [cl|] eqn:Hcl; [|done].
    destruct (pinv_unbuffered w Hp c cl Hcl) as [Hcap Hq].
    by apply mailbox_update_pinv.
Qed.

Lemma run_pinv evs w :
  program_inv w → ∃ w', run render evs w = Ok w' ∧ program_inv w'.
Proof.
  revert w. induction evs as [|e evs IH]; intros w Hp; [by exists w|].
  destruct (step_pinv e w Hp) as (w1 & Hstep & Hp1).
  destruct (IH w1 Hp1) as (w' & Hrun & Hp').
  exists w'. split; [|done]. simpl. rewrite Hstep. exact Hrun.
Qed.

Lemma elem_of_closes c tr : c ∈ closes tr ↔ Closed c ∈ tr.
Proof.
  unfold closes. rewrite list_elem_of_omap. split.
  - intros (e & He & Hc). destruct e; try discriminate. by injection Hc as ->.
  - intros Hin. by exists (Closed c).
Qed.

Lemma boot_closed_by_hub : closed_by_hub boot.
Proof. intros c cl Hcl. unfold boot in Hcl. simpl in Hcl. by rewrite lookup_empty in Hcl. Qed.

Lemma step_closed_by_hub e w :
  world_inv w → closed_by_hub w →
  ∃ w', step render e w = Ok w' ∧ world_inv w' ∧ closed_by_hub w'.
Proof.
  intros Hinv Hby. destruct (step_inv render e w Hinv) as (w' & Hstep & Hinv' & _).
  exists w'. split; [done|]. split; [done|].
  destruct e as [cid | c | m | c | c]; simpl in Hstep.
  - rewrite serveWs_result in Hstep. injection Hstep as <-.
    intros c' cl' Hcl' Hclosed. simpl in Hcl' |- *.
    destruct (decide (c' = fresh (dom (heap w)))) as [-> | Hne].
    + rewrite lookup_insert_eq in Hcl'. injection Hcl' as <-. discriminate.
    + rewrite lookup_insert_ne in Hcl' by done.
      rewrite closes_app. apply elem_of_app. left. by eapply Hby.
  - destruct (clients (hub w) !! c) as [v|] eqn:Hv.
    + destruct (registry_live_lookup w c v (inv_live w Hinv) Hv) as (_ & cl & Hcl & Hopen).
      rewrite (on_unregister_present c w v cl Hv Hcl Hopen) in Hstep.
      injection Hstep as <-. intros c' cl' Hcl' Hclosed. simpl in Hcl' |- *.
      rewrite closes_app. apply elem_of_app.
      destruct (decide (c' = c)) as [-> | Hne].
      * right. simpl. left.
      * rewrite lookup_insert_ne in Hcl' by done. left. by eapply Hby.
    + rewrite (on_unregister_absent c w Hv) in Hstep. by injection Hstep as <-.
  - destruct (on_broadcast_in_spec render m (range_keys (clients (hub w))) w
                ltac:(reflexivity) (inv_live w Hinv))
      as (w'' & Hrun' & _ & Htr & Hout & Hin).
    unfold on_broadcast in Hstep. rewrite Hstep in Hrun'. injection Hrun' as <-.
    intros c cl' Hcl' Hclosed. rewrite Htr, closes_app. apply elem_of_app.
    destruct (clients (hub w) !! c) as [v|] eqn:Hv.
    + destruct (registry_live_lookup w c v (inv_live w Hinv) Hv) as (_ & cl & Hcl & _).
      destruct (Hin c v cl Hv Hcl) as (cl1 & Hcl1 & _ & Hcase).
      assert (cl1 = cl') as -> by congruence.
      destruct (accepts (Client.send cl)) eqn:Hacc.
      * destruct Hcase as [Hsend _].
        apply chansend_nb_accepted in Hsend as (_ & Hopen' & _). congruence.
      * right. apply elem_of_closes, list_elem_of_bind. exists c. split.
        -- unfold offer_log. rewrite Hcl, Hacc. right. left.
        -- apply elem_of_range_keys. by exists v.
    + destruct (Hout c Hv) as [_ Hsame]. rewrite Hsame in Hcl'. left. by eapply Hby.
  - injection Hstep as <-. unfold pump_recv.
    destruct (heap w !! c) as [cl|] eqn:Hcl; [|done].
    intros c' cl' Hcl' Hclosed. simpl in Hcl' |- *.
    destruct (decide (c' = c)) as [-> | Hne].
    + rewrite lookup_insert_eq in Hcl'. injection Hcl' as <-. simpl in Hclosed.
      rewrite chanrecv_closed in Hclosed. by eapply Hby.
    + rewrite lookup_insert_ne in Hcl' by done. by eapply Hby.
  - injection Hstep as <-. unfold pump_tick.
    destruct (heap w !! c) as [cl|] eqn:Hcl; [|done].
    intros c' cl' Hcl' Hclosed. simpl in Hcl' |- *.
    destruct (decide (c' = c)) as [-> | Hne].
    + rewrite lookup_insert_eq in Hcl'. injection Hcl' as <-. by eapply Hby.
    + rewrite lookup_insert_ne in Hcl' by done. by eapply Hby.
Qed.

Lemma run_closed_by_hub evs w :
  world_inv w → closed_by_hub w →
  ∃ w', run render evs w = Ok w' ∧ world_inv w' ∧ closed_by_hub w'.
Proof.
  revert w. induction evs as [|e evs IH]; intros w Hinv Hby; [by exists w|].
  destruct (step_closed_by_hub e w Hinv Hby) as (w1 & Hstep & Hinv1 & Hby1).
  destruct (IH w1 Hinv1 Hby1) as (w' & Hrun & Hinv' & Hby').
  exists w'. split; [|done]. simpl. rewrite Hstep. exact Hrun.
Qed.

Lemma step_heap_keeps e w :
  world_inv w →
  ∃ w', step render e w = Ok w' ∧
        ∀ c, is_Some (heap w !! c) → is_Some (heap w' !! c).
Proof.
  intros Hinv. destruct (step_inv render e w Hinv) as (w' & Hstep & _ & _).
  exists w'. split; [done|].
  destruct e as [cid | c | m | c | c]; simpl in Hstep.
  - rewrite serveWs_result in Hstep. injection Hstep as <-. simpl.
    intros c' Hc'. destruct (decide (c' = fresh (dom (heap w)))) as [-> | Hne].
    + rewrite lookup_insert_eq. by eauto.
    + by rewrite lookup_insert_ne.
  - destruct (clients (hub w) !! c) as [v|] eqn:Hv.
    + destruct (registry_live_lookup w c v (inv_live w Hinv) Hv) as (_ & cl & Hcl & Hopen).
      rewrite (on_unregister_present c w v cl Hv Hcl Hopen) in Hstep.
      injection Hstep as <-. simpl.
      intros c' Hc'. destruct (decide (c' = c)) as [-> | Hne].
      * rewrite lookup_insert_eq. by eauto.
      * by rewrite lookup_insert_ne.
    + rewrite (on_unregister_absent c w Hv) in Hstep. by injection Hstep as <-.
  - destruct (on_broadcast_in_spec render m (range_keys (clients (hub w))) w
                ltac:(reflexivity) (inv_live w Hinv))
      as (w'' & Hrun' & _ & _ & Hout & Hin).
    unfold on_broadcast in Hstep. rewrite Hstep in Hrun'. injection Hrun' as <-.
    intros c [cl Hcl]. destruct (clients (hub w) !! c) as [v|] eqn:Hv.
    + destruct (Hin c v cl Hv Hcl) as (cl1 & Hcl1 & _). by eauto.
    + destruct (Hout c Hv) as [_ ->]. by eauto.
  - injection Hstep as <-. unfold pump_recv.
    destruct (heap w !! c) as [cl|] eqn:Hcl; [|done]. simpl.
    intros c' Hc'. destruct (decide (c' = c)) as [-> | Hne].
    + rewrite lookup_insert_eq. by eauto.
    + by rewrite lookup_insert_ne.
  - injection Hstep as <-. unfold pump_tick.
    destruct (heap w !! c) as [cl|] eqn:Hcl; [|done]. simpl.
    intros c' Hc'. destruct (decide (c' = c)) as [-> | Hne].
    + rewrite lookup_insert_eq. by eauto.
    + by rewrite lookup_insert_ne.
Qed.

Lemma run_heap_keeps evs w :
  world_inv w →
  ∃ w', run render evs w = Ok w' ∧
        ∀ c, is_Some (heap w !! c) → is_Some (heap w' !! c).
Proof.
  revert w. induction evs as [|e evs IH]; intros w Hinv; [by exists w|].
  destruct (step_inv render e w Hinv) as (w1 & Hstep & Hinv1 & _).
  destruct (step_heap_keeps e w Hinv) as (w1' & Hstep' & Hkeep1).
  rewrite Hstep in Hstep'. injection Hstep' as <-.
  destruct (IH w1 Hinv1) as (w' & Hrun & Hkeep).
  exists w'. split; [|by auto]. simpl. rewrite Hstep. exact Hrun.
Qed.

(** The Hub drops a registry entry and closes the mailbox in one go, and
    does neither without the other.  Take any state the program reaches
    and any later one: a client that was in the registry in the first is,
    in the second, either still in the registry with its mailbox open, or
    out of it with its mailbox closed by the loop itself, as the trace
    shows. *)
Theorem dropped_client_was_closed_by_hub evs1 evs2 :
  ∃ w1 w2, run render evs1 boot = Ok w1 ∧ run render evs2 w1 = Ok w2 ∧
    ∀ c, is_Some (clients (hub w1) !! c) →
      ∃ cl, heap w2 !! c = Some cl ∧
            (is_Some (clients (hub w2) !! c) ∧ closed (Client.send cl) = false ∨
             clients (hub w2) !! c = None ∧ closed (Client.send cl) = true ∧
             c ∈ closes (trace w2)).
Proof.
  destruct (run_pinv evs1 boot boot_pinv) as (w1 & Hrun1 & Hp1).
  destruct (run_closed_by_hub evs1 boot boot_inv boot_closed_by_hub)
    as (w1' & Hrun1' & _ & Hby1).
  rewrite Hrun1 in Hrun1'. injection Hrun1' as <-.
  destruct (run_pinv evs2 w1 Hp1) as (w2 & Hrun2 & [Hinv2 Hreg2 _]).
  destruct (run_closed_by_hub evs2 w1 (pinv_world w1 Hp1) Hby1)
    as (w2' & Hrun2' & _ & Hby2).
  rewrite Hrun2 in Hrun2'. injection Hrun2' as <-.
  destruct (run_heap_keeps evs2 w1 (pinv_world w1 Hp1)) as (w2' & Hrun2' & Hkeep).
  rewrite Hrun2 in Hrun2'. injection Hrun2' as <-.
  exists w1, w2. split; [done|]. split; [done|].
  intros c [v Hv].
  destruct (registry_live_lookup w1 c v (inv_live w1 (pinv_world w1 Hp1)) Hv)
    as (_ & cl1 & Hcl1 & _).
  destruct (Hkeep c ltac:(by exists cl1)) as [cl Hcl].
  exists cl. split; [done|].
  destruct (clients (hub w2) !! c) as [v2|] eqn:Hv2.
  - left. split; [by eauto|].
    destruct (registry_live_lookup w2 c v2 (inv_live w2 Hinv2) Hv2) as (_ & cl' & Hcl' & Hopen).
    congruence.
  - right. split; [done|].
    assert (Hclosed : closed (Client.send cl) = true).
    { destruct (closed (Client.send cl)) eqn:Hc; [done|].
      destruct (Hreg2 c cl Hcl Hc) as [v' Hv']. congruence. }
    split; [done|]. by eapply Hby2.
Qed.


(** In every state the program reaches, every mailbox is unbuffered and
    holds nothing, so [len(c.send)] is 0 whenever [writePump] asks: the
    frame it writes for a message is that message, once. *)
Theorem mailboxes_stay_unbuffered evs :
  ∃ w, run render evs boot = Ok w ∧
       ∀ c cl, heap w !! c = Some cl →
         dataqsiz (Client.send cl) = 0 ∧ chanlen (Client.send cl) = 0 ∧
         ∀ now msg conn,
           writePump_onSend now msg true (Client.send cl) false false conn
           = (WriteFrame (TextMessage msg) (SetWriteDeadline (now + writeWait) conn),
              Client.send cl, Continue).
Proof.
  destruct (run_pinv evs boot boot_pinv) as (w & Hrun & [_ _ Hunb]).
  exists w. split; [done|]. intros c cl Hcl.
  destruct (Hunb c cl Hcl) as [Hcap Hq]. split; [done|].
  split; [unfold chanlen; by rewrite Hq|].
  intros now msg conn. by apply writePump_onSend_empty_queue.
Qed.

(** ** What a mailbox accepts, in order *)

Lemma accepted_by_app c tr1 tr2 :
  accepted_by c (tr1 ++ tr2) = accepted_by c tr1 ++ accepted_by c tr2.
Proof. apply omap_app. Qed.

Lemma accepted_by_offer_log b w c c' :
  accepted_by c (offer_log b w c') = [] ∨
  c' = c ∧ accepted_by c (offer_log b w c') = [b].
Proof.
  unfold offer_log. destruct (heap w !! c') as [cl|]; [|by left].
  destruct (accepts (Client.send cl)); simpl.
  - destruct (decide (c' = c)) as [-> | Hne]; [right | left]; done.
  - by left.
Qed.

Lemma accepted_by_fan_out_notin b w c (order : list loc) :
  c ∉ order → accepted_by c (order ≫= offer_log b w) = [].
Proof.
  induction order as [|c' order IH]; intros Hnotin; [done|].
  apply not_elem_of_cons in Hnotin as [Hne Hnotin].
  change ((c' :: order) ≫= offer_log b w)
    with (offer_log b w c' ++ (order ≫= offer_log b w)).
  rewrite accepted_by_app, (IH Hnotin), app_nil_r.
  destruct (accepted_by_offer_log b w c c') as [-> | [-> _]]; done.
Qed.

Lemma accepted_by_fan_out b w c (order : list loc) :
  NoDup order → accepted_by c (order ≫= offer_log b w) `sublist_of` [b].
Proof.
  induction 1 as [|c' order Hnotin Hnd IH]; [apply sublist_nil_l|].
  change ((c' :: order) ≫= offer_log b w)
    with (offer_log b w c' ++ (order ≫= offer_log b w)).
  rewrite accepted_by_app.
  destruct (accepted_by_offer_log b w c c') as [-> | [-> ->]].
  - exact IH.
  - by rewrite (accepted_by_fan_out_notin b w c order Hnotin).
Qed.

Lemma pump_recv_trace c w : trace (pump_recv c w) = trace w.
Proof. unfold pump_recv. by destruct (heap w !! c). Qed.

Lemma pump_tick_trace c w : trace (pump_tick c w) = trace w.
Proof. unfold pump_tick. by destruct (heap w !! c). Qed.

Lemma step_accepted c e w :
  world_inv w →
  ∃ w' extra, step render e w = Ok w' ∧ world_inv w' ∧
    messages (hub w') = messages (hub w) ++ broadcasts [e] ∧
    accepted_by c (trace w') = accepted_by c (trace w) ++ extra ∧
    extra `sublist_of` (render <$> broadcasts [e]).
Proof.
  intros Hinv. destruct (step_inv render e w Hinv) as (w' & Hstep & Hinv' & Hmsg).
  exists w'. destruct e as [cid | c' | m | c' | c']; simpl in Hstep |- *.
  - exists []. rewrite serveWs_result in Hstep. injection Hstep as <-.
    split_and!; [apply serveWs_result | done | done | | done].
    simpl. by rewrite accepted_by_app.
  - exists []. split_and!; [done..| |done].
    destruct (clients (hub w) !! c') as [v|] eqn:Hv.
    + destruct (registry_live_lookup w c' v (inv_live w Hinv) Hv) as (_ & cl & Hcl & Hopen).
      rewrite (on_unregister_present c' w v cl Hv Hcl Hopen) in Hstep.
      injection Hstep as <-. simpl. by rewrite accepted_by_app.
    + rewrite (on_unregister_absent c' w Hv) in Hstep. injection Hstep as <-.
      by rewrite app_nil_r.
  - destruct (on_broadcast_in_spec render m (range_keys (clients (hub w))) w
                ltac:(reflexivity) (inv_live w Hinv))
      as (w'' & Hrun' & _ & Htr & _ & _).
    unfold on_broadcast in Hstep. rewrite Hstep in Hrun'. injection Hrun' as <-.
    exists (accepted_by c (range_keys (clients (hub w)) ≫= offer_log (render m) w)).
    split_and!; [done | done | done | |].
    + by rewrite Htr, accepted_by_app.
    + apply accepted_by_fan_out, range_keys_NoDup.
  - exists []. injection Hstep as <-. split_and!; [done..| |done].
    by rewrite pump_recv_trace, app_nil_r.
  - exists []. injection Hstep as <-. split_and!; [done..| |done].
    by rewrite pump_tick_trace, app_nil_r.
Qed.

Lemma run_accepted c evs w :
  world_inv w →
  ∃ w' extra, run render evs w = Ok w' ∧ world_inv w' ∧
    messages (hub w') = messages (hub w) ++ broadcasts evs ∧
    accepted_by c (trace w') = accepted_by c (trace w) ++ extra ∧
    extra `sublist_of` (render <$> broadcasts evs).
Proof.
  revert w. induction evs as [|e evs IH]; intros w Hinv.
  { exists w, []. simpl. rewrite !app_nil_r. by split_and!. }
  destruct (step_accepted c e w Hinv) as (w1 & x1 & Hstep & Hinv1 & Hmsg1 & Hacc1 & Hsub1).
  destruct (IH w1 Hinv1) as (w' & x2 & Hrun & Hinv' & Hmsg & Hacc & Hsub).
  exists w', (x1 ++ x2). split_and!.
  - simpl. rewrite Hstep. exact Hrun.
  - done.
  - by rewrite Hmsg, Hmsg1, (broadcasts_cons e evs), app_assoc.
  - by rewrite Hacc, Hacc1, app_assoc.
  - rewrite (broadcasts_cons e evs), fmap_app. by apply sublist_app.
Qed.

(** What a client's mailbox accepts over a run is a subsequence of the
    rendered history: the accepted messages come in the order they were
    broadcast, and none comes twice. *)
Theorem mailbox_receives_in_broadcast_order c evs :
  ∃ w, run render evs boot = Ok w ∧
       accepted_by c (trace w) `sublist_of` (render <$> messages (hub w)).
Proof.
  destruct (run_accepted c evs boot boot_inv) as (w & extra & Hrun & _ & Hmsg & Hacc & Hsub).
  exists w. split; [done|]. by rewrite Hacc, Hmsg.
Qed.

(** ** Who can enter the registry *)

Lemma step_registry_shrinks e w :
  (∀ cid, e ≠ EvServeWs cid) → world_inv w →
  ∃ w', step render e w = Ok w' ∧ world_inv w' ∧
        ∀ c, is_Some (clients (hub w') !! c) → is_Some (clients (hub w) !! c).
Proof.
  intros Hne Hinv. destruct (step_inv render e w Hinv) as (w' & Hstep & Hinv' & _).
  exists w'. split; [done|]. split; [done|].
  destruct e as [cid | c' | m | c' | c']; simpl in Hstep.
  - by destruct (Hne cid).
  - destruct (clients (hub w) !! c') as [v|] eqn:Hv.
    + destruct (registry_live_lookup w c' v (inv_live w Hinv) Hv) as (_ & cl & Hcl & Hopen).
      rewrite (on_unregister_present c' w v cl Hv Hcl Hopen) in Hstep.
      injection Hstep as <-. simpl. intros c [v' Hc].
      apply lookup_delete_Some in Hc as [_ Hc]. by eauto.
    + rewrite (on_unregister_absent c' w Hv) in Hstep. by injection Hstep as <-.
  - destruct (on_broadcast_in_spec render m (range_keys (clients (hub w))) w
                ltac:(reflexivity) (inv_live w Hinv))
      as (w'' & Hrun' & _ & _ & Hout & _).
    unfold on_broadcast in Hstep. rewrite Hstep in Hrun'. injection Hrun' as <-.
    intros c [v' Hc]. destruct (clients (hub w) !! c) as [v|] eqn:Hv; [by eauto|].
    destruct (Hout c Hv) as [Hnone _]. congruence.
  - injection Hstep as <-. unfold pump_recv. by destruct (heap w !! c').
  - injection Hstep as <-. unfold pump_tick. by destruct (heap w !! c').
Qed.

Lemma run_registry_shrinks evs w :
  world_inv w →
  (∀ cid, EvServeWs cid ∉ evs) →
  ∃ w', run render evs w = Ok w' ∧ world_inv w' ∧
        ∀ c, is_Some (clients (hub w') !! c) → is_Some (clients (hub w) !! c).
Proof.
  revert w. induction evs as [|e evs IH]; intros w Hinv Hno; [by exists w|].
  destruct (step_registry_shrinks e w) as (w1 & Hstep & Hinv1 & Hsub1); [|done|].
  { intros cid ->. apply (Hno cid). left. }
  destruct (IH w1 Hinv1) as (w' & Hrun & Hinv' & Hsub).
  { intros cid Hin. apply (Hno cid). by right. }
  exists w'. split_and!; [|done|by auto].
  simpl. rewrite Hstep. exact Hrun.
Qed.

(** Only [serveWs] brings a client into the registry: over events that
    hold no new connection, whoever is registered at the end was
    registered at the start. *)
Theorem registry_grows_only_by_serveWs evs w :
  world_inv w →
  (∀ cid, EvServeWs cid ∉ evs) →
  ∃ w', run render evs w = Ok w' ∧ world_inv w' ∧
        ∀ c, is_Some (clients (hub w') !! c) → is_Some (clients (hub w) !! c).
Proof. apply run_registry_shrinks. Qed.

(** ** One client from connect to disconnect *)

Lemma run_app evs1 evs2 w :
  run render (evs1 ++ evs2) w = run render evs1 w ≫= run render evs2.
Proof.
  revert w. induction evs1 as [|e evs1 IH]; intros w; [done|].
  simpl. destruct (step render e w) as [w1|p]; simpl; [apply IH | done].
Qed.

Lemma broadcasts_app evs1 evs2 :
  broadcasts (evs1 ++ evs2) = broadcasts evs1 ++ broadcasts evs2.
Proof. apply omap_app. Qed.

Lemma broadcasts_fmap (ms : list Message) : broadcasts (EvBroadcast <$> ms) = ms.
Proof. induction ms as [|m ms IH]; [done|]. simpl. by f_equal. Qed.

Lemma readPump_events_no_connect c cid reads cid' :
  EvServeWs cid' ∉ readPump_events c cid reads.
Proof.
  unfold readPump_events. intros Hin. apply elem_of_app in Hin as [Hin | Hin].
  - apply list_elem_of_fmap in Hin as (m & Hm & _). discriminate.
  - destruct (run_end (readPump_loop cid reads)).
    + by apply elem_of_nil in Hin.
    + apply list_elem_of_singleton in Hin. discriminate.
    + apply list_elem_of_singleton in Hin. discriminate.
Qed.

Lemma broadcasts_without_pump evs :
  broadcasts (filter (fun e => is_pump_event e = false) evs) = broadcasts evs.
Proof.
  induction evs as [|e evs IH]; [done|].
  destruct e as [cid | c | m | c | c].
  - rewrite filter_cons_True by done. exact IH.
  - rewrite filter_cons_True by done. exact IH.
  - rewrite filter_cons_True by done.
    rewrite (broadcasts_cons (EvBroadcast m)), (broadcasts_cons (EvBroadcast m) evs).
    by rewrite IH.
  - rewrite filter_cons_False by done. exact IH.
  - rewrite filter_cons_False by done. exact IH.
Qed.

Lemma on_unregister_drops c w :
  world_inv w →
  ∃ w', on_unregister c w = Ok w' ∧ world_inv w' ∧
        clients (hub w') !! c = None ∧
        ∀ c', is_Some (clients (hub w') !! c') → is_Some (clients (hub w) !! c').
Proof.
  intros Hinv. destruct (on_unregister_inv c w Hinv) as (w' & Hrun & Hinv' & _).
  exists w'. split; [done|]. split; [done|].
  destruct (clients (hub w) !! c) as [v|] eqn:Hv.
  - destruct (registry_live_lookup w c v (inv_live w Hinv) Hv) as (_ & cl & Hcl & Hopen).
    rewrite (on_unregister_present c w v cl Hv Hcl Hopen) in Hrun.
    injection Hrun as <-. simpl. split; [apply lookup_delete_eq|].
    intros c' [v' Hc']. apply lookup_delete_Some in Hc' as [_ Hc']. by eauto.
  - rewrite (on_unregister_absent c w Hv) in Hrun. injection Hrun as <-. by split.
Qed.

(** A client that connects alone, has its frames sent on by [readPump]
    and goes away by a failed read leaves the history holding exactly the
    messages its pump sent on, in order, and the registry empty, however
    the steps of its outbound pump fall between the messages the Hub
    takes. *)
Theorem session_leaves_history_and_empty_registry cid reads evs :
  run_end (readPump_loop cid reads) = Returned →
  filter (fun e => is_pump_event e = false) evs
  = readPump_events (fresh (dom (heap boot))) cid reads →
  ∃ w, run render (EvServeWs cid :: evs) boot = Ok w ∧
       messages (hub w) = run_sent (readPump_loop cid reads) ∧
       clients (hub w) = ∅.
Proof.
  intros Hend Hhub. set (c0 := fresh (dom (heap boot))) in *.
  destruct (run_inv render (EvServeWs cid :: evs) boot boot_inv)
    as (w & Hrun & _ & Hmsg).
  exists w. split; [done|]. split.
  { rewrite Hmsg, (broadcasts_cons (EvServeWs cid)), <- (broadcasts_without_pump evs), Hhub.
    unfold readPump_events. rewrite Hend, broadcasts_app, broadcasts_fmap.
    simpl. by rewrite app_nil_r. }
  assert (Hno : ∀ cid', EvServeWs cid' ∉ evs).
  { intros cid' Hin. apply (readPump_events_no_connect c0 cid reads cid').
    rewrite <- Hhub. apply list_elem_of_filter. by split. }
  assert (Hunreg : EvUnregister c0 ∈ evs).
  { assert (Hin : EvUnregister c0 ∈ filter (fun e => is_pump_event e = false) evs).
    { rewrite Hhub. unfold readPump_events. rewrite Hend.
      apply elem_of_app. right. left. }
    by apply list_elem_of_filter in Hin as [_ ?]. }
  apply list_elem_of_split in Hunreg as (evs1 & evs2 & ->).
  destruct (serveWs_inv cid boot boot_inv) as (w1 & Hserve & Hinv1 & _).
  change (run render (EvServeWs cid :: evs1 ++ EvUnregister c0 :: evs2) boot)
    with (serveWs cid boot ≫= run render (evs1 ++ EvUnregister c0 :: evs2)) in Hrun.
  rewrite Hserve in Hrun. simpl in Hrun.
  assert (Hreg1 : ∀ c, is_Some (clients (hub w1) !! c) → c = c0).
  { rewrite serveWs_result in Hserve. injection Hserve as <-. simpl.
    intros c [v Hv]. fold c0 in Hv.
    destruct (decide (c = c0)) as [-> | Hne]; [done|].
    rewrite lookup_insert_ne in Hv by done. by rewrite lookup_empty in Hv. }
  rewrite run_app in Hrun.
  destruct (run_registry_shrinks evs1 w1 Hinv1) as (w2 & Hrun2 & Hinv2 & Hsub2).
  { intros cid' Hin. apply (Hno cid'), elem_of_app. by left. }
  rewrite Hrun2 in Hrun.
  change (on_unregister c0 w2 ≫= run render evs2 = Ok w) in Hrun.
  destruct (on_unregister_drops c0 w2 Hinv2) as (w3 & Hrun3 & Hinv3 & Hgone3 & Hsub3).
  rewrite Hrun3 in Hrun. simpl in Hrun.
  destruct (run_registry_shrinks evs2 w3 Hinv3) as (w4 & Hrun4 & _ & Hsub4).
  { intros cid' Hin. apply (Hno cid'), elem_of_app. right. by right. }
  rewrite Hrun4 in Hrun. injection Hrun as <-.
  apply map_empty. intros c.
  destruct (clients (hub w4) !! c) as [v|] eqn:Hv; [|done].
  assert (Hc3 : is_Some (clients (hub w3) !! c)) by (apply Hsub4; by eauto).
  assert (c = c0) as -> by (apply Hreg1, Hsub2, Hsub3, Hc3).
  rewrite Hgone3 in Hc3. by destruct Hc3.
Qed.

End HubProgram.

(** * Further properties of the pumps *)

(** ** readPump *)

Lemma Decode_nil view target :
  (Decode view target).1 = None ↔ view = Value JNull.
Proof.
  destruct view as [|v]; [done|].
  destruct v as [| b | lit fits | s | items | members]; simpl; try done.
  by destruct (fold_left store_member members (target, false)).
Qed.

(** The one frame that stops the pump with a panic is [null]: every other
    frame, decodable or not, is handled, and a failed read ends the loop
    in the ordinary way. *)
Theorem readPump_iter_panics_only_on_null cid r p :
  readPump_iter cid r = Panic p ↔
  p = NilDereference ∧ ∃ text, r = ReadFrame text (Value JNull).
Proof.
  split.
  - destruct r as [e | text view]; simpl; [discriminate|].
    destruct (Decode view zeroWSMessage) as [[m|] err] eqn:Hd; [discriminate|].
    intros [= <-]. split; [done|]. exists text. f_equal.
    apply (Decode_nil view zeroWSMessage). by rewrite Hd.
  - intros [-> [text ->]]. reflexivity.
Qed.

Lemma readPump_iter_frame cid text view :
  view ≠ Value JNull →
  ∃ lg m, readPump_iter cid (ReadFrame text view)
          = Ok {| logs := lg; submitted := Some {| ClientId := cid; Text := m |};
                  next := Continue |}.
Proof.
  intros Hne. simpl.
  destruct (Decode view zeroWSMessage) as [[m|] err] eqn:Hd.
  - by eauto.
  - destruct Hne. apply (Decode_nil view zeroWSMessage). by rewrite Hd.
Qed.

Lemma readPump_loop_frame cid text view rest m err :
  Decode view zeroWSMessage = (Some m, err) →
  readPump_loop cid (ReadFrame text view :: rest)
  = {| run_logs := (LogValue text :: if err then [LogError] else []) ++
                   run_logs (readPump_loop cid rest);
       run_sent := {| ClientId := cid; Text := WSMessage.Text m |} ::
                   run_sent (readPump_loop cid rest);
       run_end := run_end (readPump_loop cid rest) |}.
Proof. intros Hd. simpl. by rewrite Hd. Qed.

Lemma readPump_loop_null cid text view rest err :
  Decode view zeroWSMessage = (None, err) →
  readPump_loop cid (ReadFrame text view :: rest)
  = {| run_logs := [LogValue text]; run_sent := [];
       run_end := Crashed NilDereference |}.
Proof. intros Hd. simpl. by rewrite Hd. Qed.

(** Every message the pump sends on carries the id of its own client. *)
Theorem readPump_stamps_own_id cid reads :
  Forall (fun m => ClientId m = cid) (run_sent (readPump_loop cid reads)).
Proof.
  induction reads as [|r reads IH]; [constructor|]. simpl.
  destruct r as [e | text view]; simpl; [constructor|].
  destruct (Decode view zeroWSMessage) as [[m|] err]; simpl; [|constructor].
  by constructor.
Qed.

(** Frame after frame, the pump sends on one message per frame read and
    stays in its loop, whether or not the frames decode, as long as none
    of them is [null]. *)
Theorem readPump_one_message_per_frame cid reads :
  Forall (fun r => ∃ text view, r = ReadFrame text view ∧ view ≠ Value JNull) reads →
  run_end (readPump_loop cid reads) = Reading ∧
  length (run_sent (readPump_loop cid reads)) = length reads.
Proof.
  induction 1 as [|r reads (text & view & -> & Hne) _ [IHend IHlen]]; [done|].
  destruct (readPump_iter_frame cid text view Hne) as (lg & m & Hiter).
  change (readPump_loop cid (ReadFrame text view :: reads))
    with (match readPump_iter cid (ReadFrame text view) with
          | Panic p => {| run_logs := [LogValue text]; run_sent := [];
                          run_end := Crashed p |}
          | Ok st =>
              match next st with
              | Exit => {| run_logs := logs st;
                           run_sent := option_list (submitted st);
                           run_end := Returned |}
              | Continue =>
                  {| run_logs := logs st ++ run_logs (readPump_loop cid reads);
                     run_sent := option_list (submitted st) ++
                                 run_sent (readPump_loop cid reads);
                     run_end := run_end (readPump_loop cid reads) |}
              end
          end).
  rewrite Hiter. simpl. split; [done|]. by rewrite IHlen.
Qed.

(** The loop ends at the first failed read at the latest: what
    [ReadMessage] would give afterwards plays no part, nothing is sent on
    for the failed read, and the send on [h.unregister] is the last thing
    the pump puts on the Hub's channels. *)
Theorem readPump_stops_at_first_failed_read c cid pre e post :
  readPump_loop cid (pre ++ ReadFailed e :: post)
  = readPump_loop cid (pre ++ [ReadFailed e]) ∧
  run_sent (readPump_loop cid (pre ++ ReadFailed e :: post))
  = run_sent (readPump_loop cid pre) ∧
  run_end (readPump_loop cid (pre ++ ReadFailed e :: post)) ≠ Reading ∧
  last (readPump_events c cid (pre ++ ReadFailed e :: post)) = Some (EvUnregister c).
Proof.
  assert (Hloop : readPump_loop cid (pre ++ ReadFailed e :: post)
                  = readPump_loop cid (pre ++ [ReadFailed e]) ∧
                  run_sent (readPump_loop cid (pre ++ ReadFailed e :: post))
                  = run_sent (readPump_loop cid pre) ∧
                  run_end (readPump_loop cid (pre ++ ReadFailed e :: post)) ≠ Reading).
  { induction pre as [|r pre (IH1 & IH2 & IH3)]; [done|].
    rewrite <- !app_comm_cons.
    destruct r as [e' | text view]; [done|].
    destruct (Decode view zeroWSMessage) as [[m|] err] eqn:Hd.
    - rewrite (readPump_loop_frame cid text view (pre ++ ReadFailed e :: post) m err Hd),
        (readPump_loop_frame cid text view (pre ++ [ReadFailed e]) m err Hd),
        (readPump_loop_frame cid text view pre m err Hd).
      simpl. split_and!.
      + by rewrite IH1.
      + by rewrite IH2.
      + done.
    - rewrite (readPump_loop_null cid text view (pre ++ ReadFailed e :: post) err Hd),
        (readPump_loop_null cid text view (pre ++ [ReadFailed e]) err Hd),
        (readPump_loop_null cid text view pre err Hd).
      done. }
  destruct Hloop as (H1 & H2 & H3). split_and!; [done | done | done |].
  unfold readPump_events.
    destruct (run_end (readPump_loop cid (pre ++ ReadFailed e :: post)));
      [done | by rewrite last_snoc..].
Qed.

(** A failed read is logged as an error only when it is a close with a
    code other than going-away (1001) and abnormal-closure (1006); in
    every case the loop ends without sending anything on. *)
Theorem readPump_logs_unexpected_close_only cid e :
  ∃ lg, readPump_iter cid (ReadFailed e)
        = Ok {| logs := lg; submitted := None; next := Exit |} ∧
        (LogError ∈ lg ↔ ∃ code, e = CloseError code ∧ code ≠ 1001%Z ∧ code ≠ 1006%Z).
Proof.
  eexists. split; [reflexivity|].
  destruct e as [code|]; simpl.
  - destruct (decide (code ∈ [CloseGoingAway; CloseAbnormalClosure])) as [Hin | Hnotin].
    + rewrite bool_decide_true by done. simpl. split.
      * intros Hlog. apply list_elem_of_singleton in Hlog. discriminate.
      * intros (code' & [= <-] & H1 & H2).
        apply elem_of_cons in Hin as [-> | Hin]; [done|].
        apply list_elem_of_singleton in Hin as ->. done.
    + rewrite bool_decide_false by done. simpl. split.
      * intros _. exists code. split; [done|].
        split; intros ->; apply Hnotin; [left | right; left].
      * intros _. right. left.
  - split.
    + intros Hlog. apply list_elem_of_singleton in Hlog. discriminate.
    + by intros (code & [=] & _).
Qed.

(** ** Control frames after readPump has set the connection up *)

Lemma recv_control_after_init t f conn :
  handlePing conn = ExtendReadDeadline → handlePong conn = DefaultHandler →
  handlePing (recv_control t f conn) = ExtendReadDeadline ∧
  handlePong (recv_control t f conn) = DefaultHandler ∧
  sent (recv_control t f conn) = sent conn ∧
  (readDeadline (recv_control t f conn) = readDeadline conn ∨
   ∃ d, f = PingMessage d ∧ readDeadline (recv_control t f conn) = (t + pongWait)%Z).
Proof.
  intros Hping Hpong. destruct f as [d | d | d | d]; simpl.
  - by split_and!; [..|left].
  - by split_and!; [..|left].
  - rewrite Hping. simpl. split_and!; [done..|]. right. by exists d.
  - rewrite Hpong. by split_and!; [..|left].
Qed.

(** Once [readPump] has installed its ping handler, no ping and no pong
    from the peer makes the server write anything: a ping is no longer
    answered with a pong. *)
Theorem pings_are_not_answered t0 fs conn :
  handlePong conn = DefaultHandler →
  Forall (fun tf => ∃ d, tf.2 = PingMessage d ∨ tf.2 = PongMessage d) fs →
  sent (recv_controls fs (readPump_init t0 conn)) = sent conn.
Proof.
  intros Hpong _. unfold recv_controls.
  assert (Hgen : ∀ c, handlePing c = ExtendReadDeadline →
                      handlePong c = DefaultHandler →
                      sent (fold_left (fun c tf => recv_control tf.1 tf.2 c) fs c) = sent c).
  { induction fs as [|[t f] fs IH]; intros c Hp1 Hp2; [done|]. simpl.
    destruct (recv_control_after_init t f c Hp1 Hp2) as (H1 & H2 & H3 & _).
    by rewrite IH. }
  by rewrite Hgen.
Qed.

(** Without a ping from the peer the read deadline stays where the start
    of the pump put it, whatever else arrives: pongs do not move it. *)
Theorem read_deadline_fixed_without_ping t0 fs conn :
  handlePong conn = DefaultHandler →
  (∀ t d, (t, PingMessage d) ∉ fs) →
  readDeadline (recv_controls fs (readPump_init t0 conn)) = (t0 + pongWait)%Z.
Proof.
  intros Hpong Hno. unfold recv_controls.
  assert (Hgen : ∀ c, handlePing c = ExtendReadDeadline →
                      handlePong c = DefaultHandler →
                      readDeadline (fold_left (fun c tf => recv_control tf.1 tf.2 c) fs c)
                      = readDeadline c).
  { induction fs as [|[t f] fs IH]; intros c Hp1 Hp2; [done|]. simpl.
    destruct (recv_control_after_init t f c Hp1 Hp2) as (H1 & H2 & _ & [H4 | (d & -> & _)]).
    - rewrite IH; [done| |done..]. intros t' d' Hin. apply (Hno t' d'). by right.
    - destruct (Hno t d). left. }
  by rewrite Hgen.
Qed.

(** ** writePump *)

Lemma writePump_onSend_conn now msg ok ch nwErr clErr conn :
  let r := writePump_onSend now msg ok ch nwErr clErr conn in
  readLimit r.1.1 = readLimit conn ∧ readDeadline r.1.1 = readDeadline conn ∧
  handlePing r.1.1 = handlePing conn ∧ handlePong r.1.1 = handlePong conn ∧
  ∃ new, sent r.1.1 = sent conn ++ new ∧ length new ≤ 1.
Proof.
  unfold writePump_onSend.
  destruct ok; simpl; [|split_and!; [done..|]; eexists; split; [reflexivity|simpl; lia]].
  destruct nwErr; simpl; [split_and!; [done..|]; exists []; split; [by rewrite app_nil_r | simpl; lia]|].
  destruct clErr; simpl.
  - split_and!; [done..|]. exists []. split; [by rewrite app_nil_r | simpl; lia].
  - split_and!; [done..|]. eexists. split; [reflexivity|simpl; lia].
Qed.

Lemma writePump_onTick_conn now pingErr conn :
  let r := writePump_onTick now pingErr conn in
  readLimit r.1 = readLimit conn ∧ readDeadline r.1 = readDeadline conn ∧
  handlePing r.1 = handlePing conn ∧ handlePong r.1 = handlePong conn ∧
  ∃ new, sent r.1 = sent conn ++ new ∧ length new ≤ 1.
Proof.
  unfold writePump_onTick. destruct pingErr; simpl.
  - split_and!; [done..|]. exists []. split; [by rewrite app_nil_r | simpl; lia].
  - split_and!; [done..|]. eexists. split; [reflexivity|simpl; lia].
Qed.

(** The outbound pump leaves the read side of the connection alone (read
    limit, read deadline, control-frame handlers), never takes back a
    frame it has written, and writes at most one frame per case of its
    [select]. *)
Theorem writePump_touches_write_side_only cases conn :
  readLimit (writePump_loop cases conn).1 = readLimit conn ∧
  readDeadline (writePump_loop cases conn).1 = readDeadline conn ∧
  handlePing (writePump_loop cases conn).1 = handlePing conn ∧
  handlePong (writePump_loop cases conn).1 = handlePong conn ∧
  ∃ new, sent (writePump_loop cases conn).1 = sent conn ++ new ∧
         length new ≤ length cases.
Proof.
  revert conn. induction cases as [|k cases IH]; intros conn.
  { simpl. split_and!; [done..|]. exists []. split; [by rewrite app_nil_r | simpl; lia]. }
  destruct k as [now msg ok ch nwErr clErr | now pingErr].
  - pose proof (writePump_onSend_conn now msg ok ch nwErr clErr conn) as Hstep.
    simpl in Hstep. simpl.
    destruct (writePump_onSend now msg ok ch nwErr clErr conn) as [[conn' ch'] nx].
    simpl in Hstep. destruct Hstep as (H1 & H2 & H3 & H4 & new & H5 & H6).
    destruct nx.
    + destruct (IH conn') as (I1 & I2 & I3 & I4 & new' & I5 & I6).
      split_and!; [congruence..|].
      exists (new ++ new'). rewrite I5, H5, app_assoc. split; [done|].
      rewrite length_app. simpl. lia.
    + simpl. split_and!; [done..|]. exists new. split; [done|]. simpl. lia.
  - pose proof (writePump_onTick_conn now pingErr conn) as Hstep.
    simpl in Hstep. simpl.
    destruct (writePump_onTick now pingErr conn) as [conn' nx].
    simpl in Hstep. destruct Hstep as (H1 & H2 & H3 & H4 & new & H5 & H6).
    destruct nx.
    + destruct (IH conn') as (I1 & I2 & I3 & I4 & new' & I5 & I6).
      split_and!; [congruence..|].
      exists (new ++ new'). rewrite I5, H5, app_assoc. split; [done|].
      rewrite length_app. simpl. lia.
    + simpl. split_and!; [done..|]. exists new. split; [done|]. simpl. lia.
Qed.



(** ** main.go *)

(** The handler for [/] serves the index page for a GET of exactly [/];
    any other path, and any other method on [/], gets status 404. *)
Theorem rootHandler_serves_index_for_GET_root_only r :
  (rootHandler r = ServedFile "templates/index.html" ↔
   URLPath r = "/"%string ∧ Method r = "GET"%string) ∧
  (rootHandler r = ServedFile "templates/index.html" ∨
   ∃ body, rootHandler r = HttpError body 404).
Proof.
  unfold rootHandler.
  destruct (decide (URLPath r = "/"%string)) as [Hp | Hp].
  - rewrite bool_decide_false by (intros H; by apply H).
    destruct (decide (Method r = "GET"%string)) as [Hm | Hm].
    + rewrite bool_decide_false by (intros H; by apply H). split; [done|by left].
    + rewrite bool_decide_true by done. split; [|right; by eexists].
      split; [discriminate | by intros [_ ?]].
  - rewrite bool_decide_true by done. split; [|right; by eexists].
    split; [discriminate | by intros [? _]].
Qed.

(** ** Further instances on sample data *)

Lemma two_clients_inv : world_inv two_clients.
Proof.
  split.
  - exact two_clients_live.
  - intros c Hc. by apply elem_of_nil in Hc.
  - constructor.
Qed.

Lemma on_broadcast_order_irrelevant_witness :
  [1%positive; 2%positive] ≡ₚ range_keys (clients (hub two_clients)) ∧
  ∃ w1 w2, on_broadcast_in sample_render [1%positive; 2%positive] hi two_clients = Ok w1 ∧
           on_broadcast sample_render hi two_clients = Ok w2 ∧
           hub w1 = hub w2 ∧ heap w1 = heap w2.
Proof.
  assert (Hperm : [1%positive; 2%positive] ≡ₚ range_keys (clients (hub two_clients))).
  { change (range_keys (clients (hub two_clients))) with [2%positive; 1%positive].
    apply perm_swap. }
  split; [exact Hperm|].
  destruct (on_broadcast_order_irrelevant sample_render hi [1%positive; 2%positive]
              two_clients Hperm two_clients_live)
    as (w1 & w2 & H1 & H2 & H3 & H4 & _).
  exists w1, w2. by split_and!.
Defined.

Lemma broadcast_keeps_exactly_accepting_clients_witness :
  registry_live two_clients ∧
  ∃ w', on_broadcast_in sample_render (range_keys (clients (hub two_clients)))
          hi two_clients = Ok w' ∧
        is_Some (clients (hub w') !! 2%positive) ∧
        ¬ is_Some (clients (hub w') !! 1%positive).
Proof.
  split; [exact two_clients_live|].
  destruct (broadcast_keeps_exactly_accepting_clients sample_render hi
              (range_keys (clients (hub two_clients))) two_clients
              ltac:(reflexivity) two_clients_live) as (w' & Hrun & Hiff).
  exists w'. split; [exact Hrun|]. split.
  - apply Hiff. split; [by exists true|].
    by exists {| Client.id := "B"; Client.send := Chan 0 [] 1 [] false |}.
  - intros H1. apply Hiff in H1 as (_ & cl & Hcl & Hacc).
    injection Hcl as <-. discriminate.
Defined.

Lemma broadcast_delivers_one_copy_witness :
  registry_live two_clients ∧
  ∃ w' cl', on_broadcast_in sample_render (range_keys (clients (hub two_clients)))
              hi two_clients = Ok w' ∧
            heap w' !! 2%positive = Some cl' ∧
            length (delivered (Client.send cl')) = 1.
Proof.
  split; [exact two_clients_live|].
  destruct (broadcast_delivers_one_copy sample_render hi
              (range_keys (clients (hub two_clients))) two_clients
              ltac:(reflexivity) two_clients_live)
    as (w' & Hrun & _ & Hin).
  destruct (Hin 2%positive {| Client.id := "B"; Client.send := Chan 0 [] 1 [] false |})
    as (cl' & Hcl' & _ & Hlen).
  - by exists true.
  - reflexivity.
  - exists w', cl'. by split_and!.
Defined.

Lemma unregister_twice_is_unregister_once_witness :
  registry_live two_clients ∧
  ∃ w1, on_unregister 1%positive two_clients = Ok w1 ∧
        on_unregister 1%positive w1 = Ok w1.
Proof.
  split; [exact two_clients_live|].
  exact (unregister_twice_is_unregister_once 1%positive two_clients two_clients_live).
Defined.

Lemma unregister_after_eviction_is_noop_witness :
  registry_live two_clients ∧
  ∃ w', on_broadcast_in sample_render (range_keys (clients (hub two_clients)))
          hi two_clients = Ok w' ∧
        on_unregister 1%positive w' = Ok w'.
Proof.
  split; [exact two_clients_live|].
  apply (unregister_after_eviction_is_noop sample_render hi
           (range_keys (clients (hub two_clients))) two_clients 1%positive
           {| Client.id := "A"; Client.send := make_chan 0 |} (make_chan 0)).
  - reflexivity.
  - exact two_clients_live.
  - by exists true.
  - reflexivity.
  - reflexivity.
Defined.

Lemma broadcast_to_empty_registry_witness :
  clients (hub boot) = ∅ ∧
  on_broadcast sample_render hi boot
  = Ok {| hub := {| clients := ∅; messages := [hi] |}; heap := ∅; trace := [] |}.
Proof.
  split; [reflexivity|].
  exact (broadcast_to_empty_registry sample_render hi boot eq_refl).
Defined.

Lemma back_to_back_broadcasts_evict_witness :
  world_inv two_clients ∧
  ∃ w1 w2, on_broadcast sample_render hi two_clients = Ok w1 ∧
           on_broadcast sample_render hi w1 = Ok w2 ∧
           clients (hub w2) !! 2%positive = None.
Proof.
  split; [exact two_clients_inv|].
  apply (back_to_back_broadcasts_evict sample_render hi hi two_clients 2%positive
           {| Client.id := "B"; Client.send := Chan 0 [] 1 [] false |}).
  - exact two_clients_inv.
  - by exists true.
  - reflexivity.
  - reflexivity.
  - simpl. lia.
Defined.

Lemma serveWs_adds_one_fresh_client_witness :
  world_inv boot ∧
  ∃ w' c, serveWs "A" boot = Ok w' ∧ clients (hub w') = <[c := true]> ∅.
Proof.
  split; [exact boot_inv|].
  destruct (serveWs_adds_one_fresh_client "A" boot boot_inv)
    as (w' & c & Hrun & _ & _ & _ & Hreg & _).
  exists w', c. by split.
Defined.

Lemma connect_then_unregister_restores_registry_witness :
  world_inv two_clients ∧
  ∃ w1 w2 c, serveWs "C" two_clients = Ok w1 ∧ on_unregister c w1 = Ok w2 ∧
             hub w2 = hub two_clients.
Proof.
  split; [exact two_clients_inv|].
  destruct (connect_then_unregister_restores_registry "C" two_clients two_clients_inv)
    as (w1 & w2 & c & H1 & H2 & _ & H3 & _).
  exists w1, w2, c. by split_and!.
Defined.

Lemma registry_grows_only_by_serveWs_witness :
  world_inv two_clients ∧
  ∃ w', run sample_render [EvBroadcast hi; EvUnregister 2%positive] two_clients = Ok w' ∧
        ∀ c, is_Some (clients (hub w') !! c) → is_Some (clients (hub two_clients) !! c).
Proof.
  split; [exact two_clients_inv|].
  destruct (registry_grows_only_by_serveWs sample_render
              [EvBroadcast hi; EvUnregister 2%positive] two_clients two_clients_inv)
    as (w' & Hrun & _ & Hsub).
  - intros cid Hin. apply elem_of_cons in Hin as [Hin | Hin]; [discriminate|].
    apply list_elem_of_singleton in Hin. discriminate.
  - exists w'. by split.
Defined.

Lemma session_leaves_history_and_empty_registry_witness :
  run_end (readPump_loop "A" [ReadFrame "x" hi_view; ReadFailed OtherReadError]) = Returned ∧
  ∃ w, run sample_render
         [EvServeWs "A"; EvPumpRecv 1%positive; EvBroadcast hi; EvPumpRecv 1%positive;
          EvUnregister 1%positive; EvPumpRecv 1%positive] boot = Ok w ∧
       messages (hub w) = [hi] ∧ clients (hub w) = ∅.
Proof.
  split; [reflexivity|].
  exact (session_leaves_history_and_empty_registry sample_render "A"
           [ReadFrame "x" hi_view; ReadFailed OtherReadError]
           [EvPumpRecv 1%positive; EvBroadcast hi; EvPumpRecv 1%positive;
            EvUnregister 1%positive; EvPumpRecv 1%positive]
           eq_refl eq_refl).
Defined.

Lemma readPump_one_message_per_frame_witness :
  run_end (readPump_loop "A" [ReadFrame clashing_text clashing_view;
                              ReadFrame "oops" NoValue]) = Reading ∧
  length (run_sent (readPump_loop "A" [ReadFrame clashing_text clashing_view;
                                       ReadFrame "oops" NoValue])) = 2.
Proof.
  apply (readPump_one_message_per_frame "A"
           [ReadFrame clashing_text clashing_view; ReadFrame "oops" NoValue]).
  repeat constructor.
  - exists clashing_text, clashing_view. split; [reflexivity | discriminate].
  - exists "oops"%string, NoValue. split; [reflexivity | discriminate].
Defined.

Lemma pings_are_not_answered_witness :
  handlePong newConn = DefaultHandler ∧
  sent (recv_controls [(5%Z, PingMessage ""); (6%Z, PongMessage "")]
          (readPump_init 0 newConn)) = [].
Proof.
  split; [reflexivity|].
  apply (pings_are_not_answered 0 [(5%Z, PingMessage ""); (6%Z, PongMessage "")] newConn).
  - reflexivity.
  - repeat constructor.
    + exists ""%string. by left.
    + exists ""%string. by right.
Defined.

Lemma read_deadline_fixed_without_ping_witness :
  handlePong newConn = DefaultHandler ∧
  readDeadline (recv_controls [((30 * Second)%Z, PongMessage "")] (readPump_init 0 newConn))
  = (0 + pongWait)%Z.
Proof.
  split; [reflexivity|].
  apply (read_deadline_fixed_without_ping 0 [((30 * Second)%Z, PongMessage "")] newConn).
  - reflexivity.
  - intros t d Hin. apply list_elem_of_singleton in Hin. discriminate.
Defined.

